(** * JSON:API router of fastapi-rest-framework

    A shallow embedding of [fastapi_rest_framework/routers/json_api_router.py]:
    the schema closure [get_schemas_from_relationships], the [include] query
    pattern, [JSONAPIResourceRouter.get_resource] and
    [JSONAPIResourceRouter.build_response], with the properties the
    specification states about them. *)

From Stdlib Require Import Ascii String ZArith NArith Lia DecimalString DecimalZ.
From stdpp Require Import base option list strings gmap.

Set Default Proof Using "Type".
Set Warnings "-clear-no-such-hyp".
Local Open Scope string_scope.
Local Open Scope list_scope.

(** ** Exceptions

    Calls into the collaborators ([get_related], [Read.from_orm]) may raise;
    an exception leaves the enclosing function at once. *)

Inductive exn :=
  | IndexError
  | Exception (msg : string).

Inductive result (A : Type) :=
  | Ok (a : A)
  | Raise (e : exn).
Arguments Ok {A} a.
Arguments Raise {A} e.

#[global] Instance result_ret : MRet result := fun _ a => Ok a.
#[global] Instance result_bind : MBind result := fun _ _ f m =>
  match m with
  | Ok a => f a
  | Raise e => Raise e
  end.
#[global] Instance result_fmap : FMap result := fun _ _ f m =>
  match m with
  | Ok a => Ok (f a)
  | Raise e => Raise e
  end.

(** [for x in xs: body], threading the loop's mutable state. *)
Fixpoint for_each {A S : Type} (xs : list A) (body : A → S → result S) (s : S)
    : result S :=
  match xs with
  | [] => Ok s
  | x :: xs' => s' ← body x s; for_each xs' body s'
  end.

(** ** Python dictionaries

    A [dict] keeps its keys in insertion order.  Assigning to a key that is
    present replaces the value where the key already stands; assigning to a new
    key appends it. *)

Section dict.
Context {K V : Type} `{EqDecision K}.

Definition dict := list (K * V).

Fixpoint dict_set (k : K) (v : V) (d : dict) : dict :=
  match d with
  | [] => [(k, v)]
  | (k', v') :: d' =>
      if decide (k' = k) then (k', v) :: d' else (k', v') :: dict_set k v d'
  end.

Fixpoint dict_get (k : K) (d : dict) : option V :=
  match d with
  | [] => None
  | (k', v') :: d' => if decide (k' = k) then Some v' else dict_get k d'
  end.

Definition keys (d : dict) : list K := d.*1.
Definition values (d : dict) : list V := d.*2.
End dict.
Arguments dict : clear implicits.

(** ** Strings and ids

    A Python [str] is a sequence of Unicode code points.  The strings that
    come with a request are modelled as such.  The literals of the source and
    of the examples are ASCII and are read as the sequence of their
    characters.  Names the code declares (of resources, fields and
    relationships) and the strings of ids are only ever compared; they are
    kept as [string]s. *)

Definition char := N.
Bind Scope char_scope with char.

Definition char_of_ascii (c : ascii) : char := N_of_ascii c.
Coercion char_of_ascii : ascii >-> char.

Definition pystr := list char.

Definition py (s : string) : pystr :=
  char_of_ascii <$> list_ascii_of_string s.
Coercion py : string >-> pystr.

Definition char_eqb (a b : char) : bool := (a =? b)%N.

(** An id, [Union[int, str]].  As keys of a dictionary an [int] and a [str]
    are never equal. *)
Inductive pyid :=
  | IdInt (z : Z)
  | IdStr (s : string).

#[global] Instance pyid_eq_dec : EqDecision pyid.
Proof. solve_decision. Defined.

(** [str(id)]: what pydantic makes of an id for a field declared [str],
    the decimal digits of an [int] and a [str] as it is. *)
Definition str (id : pyid) : string :=
  match id with
  | IdInt z => NilEmpty.string_of_int (Z.to_int z)
  | IdStr s => s
  end.

(** ** Data model *)

Inductive value :=
  | VNone
  | VInt (z : Z)
  | VStr (s : string).

#[global] Instance value_eq_dec : EqDecision value.
Proof. solve_decision. Defined.

(** A pydantic model instance (a row, a related object, or the instance a
    [Read] schema builds): its [id] and its other fields. *)
Record BaseModel := {
  model_id : pyid;
  model_fields : list (string * value);
}.

#[global] Instance BaseModel_eq_dec : EqDecision BaseModel.
Proof. solve_decision. Defined.

(** [class JAResource(GenericModel, Generic[TRead, TName])]; its [id] is
    declared [str]. *)
Record JAResource := {
  ja_id : string;
  ja_type : string;
  ja_attributes : BaseModel;
}.

#[global] Instance JAResource_eq_dec : EqDecision JAResource.
Proof. solve_decision. Defined.

(** [JAResponseSingle] and [JAResponseList]. *)
Inductive JAResponse :=
  | JAResponseSingle (data : JAResource) (included : list JAResource)
  | JAResponseList (data : list JAResource) (included : list JAResource).

Definition included (r : JAResponse) : list JAResource :=
  match r with
  | JAResponseSingle _ inc => inc
  | JAResponseList _ inc => inc
  end.

(** [Inclusions]: the parsed paths, each a list of relationship names. *)
Abbreviation Inclusion := (list pystr).
Abbreviation Inclusions := (list (list pystr)).

(** What [build_response] reads off a resource: its registered [name] and
    its [Read] schema, used through [Read.from_orm]. *)
Record ResourceMeta := {
  name : string;
  Read : BaseModel → result BaseModel;
}.

(** The elements of the list [get_related] returns. *)
Record SelectedObj := {
  obj : BaseModel;
  resource : ResourceMeta;
}.

(** A [Resource] subclass, and an instance of one, created with the
    inclusions of the request. *)
Record ResourceClass := {
  meta : ResourceMeta;
  get_related : BaseModel → Inclusion → result (list SelectedObj);
}.

Record Resource := {
  resource_class_of : ResourceClass;
  inclusions : Inclusions;
}.

(** [rows: Union[BaseModel, list[BaseModel]]] *)
Inductive Rows :=
  | Row (row : BaseModel)
  | RowList (rows : list BaseModel).

Definition isinstance_list (rows : Rows) : bool :=
  match rows with
  | Row _ => false
  | RowList _ => true
  end.

(** The key of the deduplication dictionary: [(related_resource.name,
    obj.id)], the id as the object has it. *)
Definition Key := (string * pyid)%type.

(** The (type, id) an entry of [included] shows, and the one that the
    entry stored under a key of the dictionary shows. *)
Definition key_of (r : JAResource) : string * string := (ja_type r, ja_id r).

Definition out_key (k : Key) : string * string := (k.1, str k.2).

(** ** [JSONAPIResourceRouter.build_response] *)

(** The body of the innermost loop:
    [included_resources[(related_resource.name, obj.id)] = JAResource(...)]. *)
Definition include_selected (selected_obj : SelectedObj)
    (included_resources : dict Key JAResource) : result (dict Key JAResource) :=
  let obj := obj selected_obj in
  let related_resource := resource selected_obj in
  attributes ← Read related_resource obj;
  mret (dict_set (name related_resource, model_id obj)
          {| ja_id := str (model_id obj);
             ja_type := name related_resource;
             ja_attributes := attributes |}
          included_resources).

(** The three nested loops over rows, inclusions and selected objects. *)
Definition collect_included (rows : list BaseModel) (resource : Resource)
    : result (dict Key JAResource) :=
  for_each rows (λ row included_resources,
    for_each (inclusions resource) (λ inclusion included_resources,
      selected_objs ← get_related (resource_class_of resource) row inclusion;
      for_each selected_objs include_selected included_resources)
    included_resources) [].

(** [JAResource(id=row.id, attributes=row, type=resource.name)] *)
Definition primary (resource : Resource) (row : BaseModel) : JAResource :=
  {| ja_id := str (model_id row);
     ja_type := name (meta (resource_class_of resource));
     ja_attributes := row |}.

Definition build_response (rows : Rows) (resource : Resource)
    : result JAResponse :=
  let many := isinstance_list rows in
  let rows := match rows with RowList rows => rows | Row row => [row] end in
  included_resources ← collect_included rows resource;
  let data := primary resource <$> rows in
  if many then
    mret (JAResponseList data (values included_resources))
  else
    match data with
    | data0 :: _ => mret (JAResponseSingle data0 (values included_resources))
    | [] => Raise IndexError
    end.

(** ** [JSONAPIResourceRouter.get_resource] *)

(** [str.split(sep)] for a separator of one character: the pieces between
    the separators, empty pieces kept; the empty string gives one empty
    piece. *)
Fixpoint split (sep : char) (s : pystr) : list pystr :=
  match s with
  | [] => [[]]
  | c :: s' =>
      if decide (c = sep) then [] :: split sep s'
      else
        match split sep s' with
        | piece :: pieces => (c :: piece) :: pieces
        | [] => [[c]]
        end
  end.

(** A string is true when it is not empty. *)
Definition truthy (s : pystr) : bool :=
  match s with
  | [] => false
  | _ :: _ => true
  end.

(** The request, as far as the router reads it: [request.query_params.get]. *)
Record Request := {
  query_params_get : string → option pystr;
}.

Record JSONAPIResourceRouter := {
  resource_class : ResourceClass;
}.

Definition parse_include (include : pystr) : Inclusions :=
  split "." <$> split "," include.

Definition get_resource (self : JSONAPIResourceRouter) (request : Request)
    : Resource :=
  let include := query_params_get request "include" in
  let inclusions :=
    match include with
    | Some include => if truthy include then parse_include include else []
    | None => []
    end in
  {| resource_class_of := resource_class self; inclusions := inclusions |}.

(** ** The [include] query pattern

    Regular expressions over characters, matched with derivatives. *)

Inductive regex :=
  | Void
  | Eps
  | Class (p : char → bool)
  | Cat (r1 r2 : regex)
  | Alt (r1 r2 : regex)
  | Star (r : regex).

(** [r+] *)
Definition Plus (r : regex) : regex := Cat r (Star r).

Fixpoint nullable (r : regex) : bool :=
  match r with
  | Void => false
  | Eps => true
  | Class _ => false
  | Cat r1 r2 => nullable r1 && nullable r2
  | Alt r1 r2 => nullable r1 || nullable r2
  | Star _ => true
  end.

Fixpoint deriv (c : char) (r : regex) : regex :=
  match r with
  | Void => Void
  | Eps => Void
  | Class p => if p c then Eps else Void
  | Cat r1 r2 =>
      if nullable r1 then Alt (Cat (deriv c r1) r2) (deriv c r2)
      else Cat (deriv c r1) r2
  | Alt r1 r2 => Alt (deriv c r1) (deriv c r2)
  | Star r' => Cat (deriv c r') (Star r')
  end.

(** The whole of [s] is a word of [r]. *)
Fixpoint fullmatch (r : regex) (s : pystr) : bool :=
  match s with
  | [] => nullable r
  | c :: s' => fullmatch (deriv c r) s'
  end.

(** The table of the Unicode database the pattern needs: [isalnum c] is
    [str.isalnum] of the character with code point [c]. *)
Class Unicode := {
  isalnum : char → bool;
}.

(** [[A-Za-z0-9_]], the word characters of ASCII. *)
Definition is_ascii_word (c : char) : bool :=
  ((97 <=? c) && (c <=? 122) || (65 <=? c) && (c <=? 90)
   || (48 <=? c) && (c <=? 57) || (c =? 95))%N.

(** [\w] in a pattern for [str]: an alphanumeric character of any script,
    or [_].  Below 128 these are the word characters of ASCII; above, the
    table decides. *)
Definition is_word {U : Unicode} (c : char) : bool :=
  if (c <? 128)%N then is_ascii_word c else isalnum c.

Definition line_feed : char := 10%N.

(** [[\w\.]] *)
Definition word_or_dot {U : Unicode} (c : char) : bool :=
  is_word c || char_eqb c ".".

(** [$] where nothing follows it in the pattern: the end of the string, or
    just before a line feed that ends the string. *)
Definition Dollar : regex := Alt Eps (Class (char_eqb line_feed)).

(** [^([\w\.]+)(,[\w\.]+)*$], the pattern of [include_query].  The value is
    checked with [match], which anchors at the start, so that [^] adds
    nothing. *)
Definition include_pattern {U : Unicode} : regex :=
  Cat (Plus (Class word_or_dot))
    (Cat (Star (Cat (Class (char_eqb ",")) (Plus (Class word_or_dot))))
       Dollar).

(** [include_query = Query(None, regex=...)]: an absent parameter is let
    through, a present one must match the pattern. *)
Definition include_query {U : Unicode} (include : option pystr) : bool :=
  match include with
  | None => true
  | Some s => fullmatch include_pattern s
  end.

(** The grammar of the specification, read off the pieces [get_resource]
    produces: every segment is a non-empty run of characters of
    [[A-Za-z0-9_]]. *)
Fixpoint string_forall (p : char → bool) (s : pystr) : bool :=
  match s with
  | [] => true
  | c :: s' => p c && string_forall p s'
  end.

Definition segment_ok (segment : pystr) : bool :=
  truthy segment && string_forall is_ascii_word segment.

Definition well_formed (paths : Inclusions) : bool :=
  forallb (forallb segment_ok) paths.

Fixpoint last_char (s : pystr) : option char :=
  match s with
  | [] => None
  | [c] => Some c
  | _ :: s' => last_char s'
  end.

(** ** The schema closure: [get_schemas_from_relationships]

    The relationship graph is a cyclic structure of objects.  A
    [SchemaWithRelationships] object is named by its schema: its [.schema] is
    that name, its [.relationships] are found in the store of the graph (a
    schema the store does not list has none). *)

Section closure.
Context {Schema : Type} `{Countable Schema}.

Record RelationshipInfo := {
  schema_with_relationships : Schema;
}.

(** [Relationships]: relationship name to [RelationshipInfo]. *)
Definition Relationships := dict string RelationshipInfo.

Definition Graph := gmap Schema Relationships.

Definition relationships_of (graph : Graph) (schema : Schema)
    : Relationships :=
  default [] (graph !! schema).

(** [for x in xs: body] where the body may fail to return. *)
Fixpoint for_each_opt {A S : Type} (xs : list A) (body : A → S → option S)
    (s : S) : option S :=
  match xs with
  | [] => Some s
  | x :: xs' => s' ← body x s; for_each_opt xs' body s'
  end.

(** [visited or set()]: a set that is [None] or empty is replaced by a
    fresh set; otherwise the caller's own set is used, and changed. *)
Definition visited_or_set (visited : option (gset Schema)) : gset Schema :=
  match visited with
  | Some visited => if decide (visited = ∅) then ∅ else visited
  | None => ∅
  end.

(** The set object the caller passed, after a call that left its local
    [visited] as [local]: the same object when it was not empty,
    untouched otherwise. *)
Definition visited_after (passed local : gset Schema) : gset Schema :=
  if decide (passed = ∅) then passed else local.

(** The body of the loop.  [recurse] is the recursive call; the state of
    the loop is the pair of the local variables [schemas] and [visited]. *)
Definition visit_relationship (graph : Graph)
    (recurse : Relationships → option (gset Schema) →
               option (list Schema * gset Schema))
    (relationship_info : RelationshipInfo)
    (state : list Schema * gset Schema) : option (list Schema * gset Schema) :=
  let '(schemas, visited) := state in
  let schema := schema_with_relationships relationship_info in
  if decide (schema ∈ visited) then Some (schemas, visited)
  else
    let visited := {[schema]} ∪ visited in
    let schemas := schemas ++ [schema] in
    '(more, local) ← recurse (relationships_of graph schema) (Some visited);
    Some (schemas ++ more, visited_after visited local).

(** The function, with the depth of the recursion bounded by [fuel].  It
    returns [schemas] and the final value of its local [visited]. *)
Fixpoint get_schemas_from_relationships (fuel : nat) (graph : Graph)
    (relationships : Relationships) (visited : option (gset Schema))
    : option (list Schema * gset Schema) :=
  match fuel with
  | 0 => None
  | S fuel' =>
      let schemas := [] in
      let visited := visited_or_set visited in
      for_each_opt (values relationships)
        (visit_relationship graph (get_schemas_from_relationships fuel' graph))
        (schemas, visited)
  end.

(** The schemas of a relationship mapping, and every schema a graph and
    the root's relationships mention. *)
Definition targets (relationships : Relationships) : list Schema :=
  schema_with_relationships <$> values relationships.

Definition universe (graph : Graph) (relationships : Relationships)
    : gset Schema :=
  list_to_set (targets relationships)
  ∪ list_to_set (mjoin (targets <$> (map_to_list graph).*2)).

(** Fuel that is enough for any call on the graph. *)
Definition closure_fuel (graph : Graph) (relationships : Relationships)
    : nat :=
  S (size (universe graph relationships)).

(** [edge graph a b]: schema [a] declares a relationship to schema [b]. *)
Definition edge (graph : Graph) (a b : Schema) : Prop :=
  b ∈ targets (relationships_of graph a).

(** Reachable from the root's relationships: the target of one of them,
    or a schema some chain of relationships leads to from there. *)
Definition reachable (graph : Graph) (relationships : Relationships)
    (schema : Schema) : Prop :=
  ∃ t, t ∈ targets relationships ∧ rtc (edge graph) t schema.

(** A chain of relationships from [a] to [b] through schemas outside
    [visited] only, both ends included. *)
Inductive unvisited_path (graph : Graph) (visited : gset Schema)
    : Schema → Schema → Prop :=
  | unvisited_here a :
      a ∉ visited → unvisited_path graph visited a a
  | unvisited_step a b c :
      a ∉ visited → edge graph a b → unvisited_path graph visited b c →
      unvisited_path graph visited a c.

(** What a run of the loop over relationships with targets [ts] has to
    give when it starts from [visited]: the schemas [out] it appends, each
    once, are those a chain through unvisited schemas leads to, and they
    are what it adds to [visited]. *)
Definition closure_of (graph : Graph) (ts : list Schema)
    (visited : gset Schema) (out : list Schema) (visited' : gset Schema)
    : Prop :=
  NoDup out
  ∧ visited' = visited ∪ list_to_set out
  ∧ ∀ s, s ∈ out ↔ ∃ t, t ∈ ts ∧ unvisited_path graph visited t s.
End closure.
Arguments RelationshipInfo : clear implicits.
Arguments Relationships : clear implicits.
Arguments Graph Schema {_ _}.

(** ** The specification's reading of the included objects

    One [get_related] call for each pair of a primary row and a whole
    inclusion path, rows first; every selected object gives one discovery,
    keyed by the name of its resource and its id. *)

Definition discovery (selected_obj : SelectedObj) : result (Key * JAResource) :=
  attributes ← Read (resource selected_obj) (obj selected_obj);
  mret ((name (resource selected_obj), model_id (obj selected_obj)),
        {| ja_id := str (model_id (obj selected_obj));
           ja_type := name (resource selected_obj);
           ja_attributes := attributes |}).

Definition discoveries_of (resource : Resource) (pair : BaseModel * Inclusion)
    : result (list (Key * JAResource)) :=
  selected_objs ← get_related (resource_class_of resource) pair.1 pair.2;
  mapM discovery selected_objs.

Definition discoveries (rows : list BaseModel) (resource : Resource)
    : result (list (Key * JAResource)) :=
  mjoin <$> mapM (discoveries_of resource)
            (list_prod rows (inclusions resource)).

Definition rows_list (rows : Rows) : list BaseModel :=
  match rows with
  | RowList rows => rows
  | Row row => [row]
  end.

(** [data] of a response: one resource object, or an array of them. *)
Definition data (r : JAResponse) : JAResource + list JAResource :=
  match r with
  | JAResponseSingle d _ => inl d
  | JAResponseList ds _ => inr ds
  end.

(** The entry of a discovery shows the key it is stored under. *)
Definition keyed (kv : Key * JAResource) : Prop := key_of kv.2 = out_key kv.1.


(** The [data] of the document for [rows]: one resource object per primary
    row, in the order of the rows. *)
Definition data_of (rows : Rows) (resource : Resource)
    : JAResource + list JAResource :=
  match rows with
  | Row row => inl (primary resource row)
  | RowList rows => inr (primary resource <$> rows)
  end.

Section writes.
Context {K V : Type} `{EqDecision K}.

(** The dictionary a sequence of assignments builds. *)
Definition dict_of (writes : list (K * V)) : dict K V :=
  foldl (λ d kv, dict_set kv.1 kv.2 d) [] writes.

(** The value of the first and of the last assignment to a key. *)
Definition first_write (k : K) (writes : list (K * V)) : option V :=
  dict_get k writes.

Fixpoint last_write (k : K) (writes : list (K * V)) : option V :=
  match writes with
  | [] => None
  | (k', v) :: writes' =>
      match last_write k writes' with
      | Some v' => Some v'
      | None => if decide (k' = k) then Some v else None
      end
  end.

(** The keys in the order in which they first occur. *)
Fixpoint first_occurrences (ks : list K) : list K :=
  match ks with
  | [] => []
  | k :: ks' => k :: filter (λ k', k' ≠ k) (first_occurrences ks')
  end.
End writes.

(** ** A small blog, for the examples *)

(** A [Read] schema that declares [fields]: [from_orm] reads each of them
    off the object and fails when one is missing. *)
Definition from_orm (fields : list string) (obj : BaseModel) : result BaseModel :=
  attrs ← mapM (λ field,
             match dict_get field (model_fields obj) with
             | Some v => Ok (field, v)
             | None => Raise (Exception "field required")
             end) fields;
  mret {| model_id := model_id obj; model_fields := attrs |}.

Definition post1 : BaseModel :=
  {| model_id := IdInt 1;
     model_fields := [("title", VStr "Hello"); ("draft_notes", VStr "todo")] |}.
Definition post2 : BaseModel :=
  {| model_id := IdInt 2; model_fields := [("title", VStr "World")] |}.
Definition author7 : BaseModel :=
  {| model_id := IdInt 7; model_fields := [("name", VStr "Ann")] |}.
Definition author7_renamed : BaseModel :=
  {| model_id := IdInt 7; model_fields := [("name", VStr "Anne")] |}.
Definition author8 : BaseModel :=
  {| model_id := IdInt 8; model_fields := [("name", VStr "Bob")] |}.

Definition post_meta : ResourceMeta :=
  {| name := "post"; Read := from_orm ["title"] |}.
Definition author_meta : ResourceMeta :=
  {| name := "author"; Read := from_orm ["name"] |}.

(** The author again, from a table that keeps its ids as text. *)
Definition author7_text : BaseModel :=
  {| model_id := IdStr "7"; model_fields := [("name", VStr "Ann")] |}.

(** Posts have an [author], an [editor], a [translator] and [reviewers];
    any other path selects nothing. *)
Definition post_get_related (row : BaseModel) (inclusion : Inclusion)
    : result (list SelectedObj) :=
  if decide (inclusion = [py "author"]) then
    Ok [ {| obj := author7; resource := author_meta |} ]
  else if decide (inclusion = [py "editor"]) then
    Ok [ {| obj := author7_renamed; resource := author_meta |} ]
  else if decide (inclusion = [py "translator"]) then
    Ok [ {| obj := author7_text; resource := author_meta |} ]
  else if decide (inclusion = [py "reviewers"]) then
    Ok [ {| obj := author8; resource := author_meta |};
         {| obj := author7; resource := author_meta |} ]
  else Ok [].

Definition PostResource : ResourceClass :=
  {| meta := post_meta; get_related := post_get_related |}.

Definition post_router : JSONAPIResourceRouter :=
  {| resource_class := PostResource |}.

Definition request_with (include : option pystr) : Request :=
  {| query_params_get := λ key, if decide (key = "include") then include else None |}.

(** The entry of an author under [included]. *)
Definition author_entry (author_name : string) : JAResource :=
  {| ja_id := "7";
     ja_type := "author";
     ja_attributes :=
       {| model_id := IdInt 7; model_fields := [("name", VStr author_name)] |} |}.


(** Relationship graphs with cycles: [A → B → A] with a leaf [C] below
    [B], and a schema that refers to itself. *)
Definition rel (name : string) (schema : string) : string * RelationshipInfo string :=
  (name, {| schema_with_relationships := schema |}).

Definition cyclic_graph : Graph string :=
  <["A" := [rel "b" "B"]]> (<["B" := [rel "a" "A"; rel "c" "C"]]> ∅).

Definition self_graph : Graph string :=
  <["Node" := [rel "parent" "Node"; rel "children" "Node"]]> ∅.

(** ** Strings, once more *)

(** [sep.join(pieces)] for a separator of one character. *)
Fixpoint str_join (sep : char) (pieces : list pystr) : pystr :=
  match pieces with
  | [] => []
  | [piece] => piece
  | piece :: pieces' => piece ++ sep :: str_join sep pieces'
  end.

(** [s.count(c)] *)
Fixpoint count_char (c : char) (s : pystr) : nat :=
  match s with
  | [] => 0
  | c' :: s' => (if decide (c' = c) then 1 else 0) + count_char c s'
  end.

(** A part of an [include] string between two commas, as the pattern wants
    it: not empty, and made of word characters and dots. *)
Definition group_ok {U : Unicode} (group : pystr) : Prop :=
  group ≠ [] ∧ string_forall word_or_dot group = true.

(** ** The response models

    [get_included_schema], [get_read_response_model] and
    [get_list_response_model] build types.  A type is written down as the
    data that names it. *)

Section models.
Context {Schema : Type} `{Countable Schema}.

(** [JAResource[schema, Literal[(name,)]]] *)
Record JAResourceModel := {
  attributes_schema : Schema;
  type_literal : string;
}.

#[global] Instance JAResourceModel_eq_dec : EqDecision JAResourceModel.
Proof using All. solve_decision. Defined.

(** [Included]: the plain [list], or [List[Union[...]]] of the members. *)
Inductive IncludedModel :=
  | PlainList
  | ListOfUnion (members : list JAResourceModel).

(** [JAResponseSingle[Read, Name, Included]] and
    [JAResponseList[Read, Name, Included]]; [Name] is [Literal[(name,)]]. *)
Inductive ResponseModel :=
  | JAResponseSingleModel (Read_ : Schema) (Name : string) (Included : IncludedModel)
  | JAResponseListModel (Read_ : Schema) (Name : string) (Included : IncludedModel).

(** The class attributes of [resource_class] the models are built from:
    [Read], [name], [get_relationships()] and, for every registered schema,
    the [name] of [registry[schema]]. *)
Record ResourceSchemas := {
  Read_schema : Schema;
  resource_name : string;
  get_relationships : Relationships Schema;
  registry : gmap Schema string;
}.

(** [Union[members]]: a member that occurs again is dropped. *)
Definition Union (members : list JAResourceModel) : list JAResourceModel :=
  first_occurrences members.

(** [registry[schema].name], a [KeyError] when the schema is not registered. *)
Definition registry_name (cls : ResourceSchemas) (schema : Schema)
    : result string :=
  match registry cls !! schema with
  | Some name => Ok name
  | None => Raise (Exception "KeyError")
  end.

(** [get_included_schema]; [None] when the fuel of the closure runs out. *)
Definition get_included_schema (fuel : nat) (graph : Graph Schema)
    (cls : ResourceSchemas) : option (result (list JAResourceModel)) :=
  let relationships := get_relationships cls in
  '(schemas, _) ← get_schemas_from_relationships fuel graph relationships None;
  Some (mapM (λ schema,
                name ← registry_name cls schema;
                mret {| attributes_schema := schema; type_literal := name |})
          schemas).

(** [List[Union[included_schemas]] if included_schemas else list] *)
Definition Included_of (included_schemas : list JAResourceModel) : IncludedModel :=
  match included_schemas with
  | [] => PlainList
  | _ :: _ => ListOfUnion (Union included_schemas)
  end.

Definition get_read_response_model (fuel : nat) (graph : Graph Schema)
    (cls : ResourceSchemas) : option (result ResponseModel) :=
  included_schemas ← get_included_schema fuel graph cls;
  Some ((λ included_schemas,
           let Included := Included_of included_schemas in
           let Read_ := Read_schema cls in
           let Name := resource_name cls in
           JAResponseSingleModel Read_ Name Included)
          <$> (included_schemas : result (list JAResourceModel))).

Definition get_list_response_model (fuel : nat) (graph : Graph Schema)
    (cls : ResourceSchemas) : option (result ResponseModel) :=
  included_schemas ← get_included_schema fuel graph cls;
  Some ((λ included_schemas,
           let Included := Included_of included_schemas in
           let Read_ := Read_schema cls in
           let Name := resource_name cls in
           JAResponseListModel Read_ Name Included)
          <$> (included_schemas : result (list JAResourceModel))).

(** [Included] of a response model. *)
Definition model_included (model : ResponseModel) : IncludedModel :=
  match model with
  | JAResponseSingleModel _ _ Included => Included
  | JAResponseListModel _ _ Included => Included
  end.
End models.
Arguments JAResourceModel : clear implicits.
Arguments IncludedModel : clear implicits.
Arguments ResponseModel : clear implicits.
Arguments ResourceSchemas : clear implicits.
Arguments ResourceSchemas Schema {_ _}.

(** ** More of the blog *)

(** A resource whose [tags] cannot be fetched. *)
Definition flaky_get_related (row : BaseModel) (inclusion : Inclusion)
    : result (list SelectedObj) :=
  if decide (inclusion = [py "tags"]) then Raise (Exception "connection lost")
  else post_get_related row inclusion.

Definition FlakyResource : ResourceClass :=
  {| meta := post_meta; get_related := flaky_get_related |}.

(** The table cut down to Latin-1, for the examples: the letters, digits
    and fractions among the code points from 128 to 255. *)
Definition latin1 : Unicode :=
  {| isalnum c :=
       ((c =? 170) || (c =? 178) || (c =? 179) || (c =? 181) || (c =? 185)
        || (c =? 186) || (188 <=? c) && (c <=? 190)
        || (192 <=? c) && (c <=? 214) || (216 <=? c) && (c <=? 246)
        || (248 <=? c) && (c <=? 255))%N |}.

(** The schemas of the cyclic graph, seen from [A], all registered. *)
Definition cyclic_schemas : ResourceSchemas string :=
  {| Read_schema := "ARead";
     resource_name := "a";
     get_relationships := relationships_of cyclic_graph "A";
     registry := <["A" := "a"]> (<["B" := "b"]> (<["C" := "c"]> ∅)) |}.

(** * Properties *)

(** ** The exception monad *)

Lemma result_bind_Ok {A B} (m : result A) (f : A → result B) (b : B) :
  m ≫= f = Ok b ↔ ∃ a, m = Ok a ∧ f a = Ok b.
Proof.
  destruct m as [a|e]; simpl.
  - split; [eauto|]. by intros (? & [= <-] & ?).
  - split; [done|]. by intros (? & ? & ?).
Qed.

Lemma result_fmap_Ok {A B} (m : result A) (f : A → B) (b : B) :
  f <$> m = Ok b ↔ ∃ a, m = Ok a ∧ b = f a.
Proof.
  destruct m as [a|e]; simpl.
  - split; [intros [= <-]; eauto|]. by intros (? & [= <-] & ->).
  - split; [done|]. by intros (? & ? & ?).
Qed.

Lemma mapM_result_app {A B} (f : A → result B) (l1 l2 : list A) :
  mapM f (l1 ++ l2) = k1 ← mapM f l1; k2 ← mapM f l2; Ok (k1 ++ k2).
Proof.
  induction l1 as [|x l1 IH]; simpl.
  - by destruct (mapM f l2).
  - destruct (f x) as [y|e]; simpl; [|done].
    rewrite IH. destruct (mapM f l1) as [k1|e]; simpl; [|done].
    by destruct (mapM f l2).
Qed.

Lemma mapM_result_Ok_nil {A B} (f : A → result (list B)) (l : list A) :
  (∀ x, x ∈ l → f x = Ok []) → mjoin <$> mapM f l = Ok [].
Proof.
  induction l as [|x l IH]; intros Hl; [done|].
  simpl. rewrite (Hl x) by left. simpl.
  pose proof (IH (λ y Hy, Hl y (list_elem_of_further _ _ _ Hy))) as IH'.
  destruct (mapM f l) as [k|e]; simpl in *; [|done].
  by injection IH' as ->.
Qed.

(** ** Dictionaries *)

Section dict_facts.
Context {K V : Type} `{EqDecision K}.
Implicit Types (k : K) (v : V) (d : dict K V) (ws : list (K * V)).

Lemma keys_dict_set k v d :
  keys (dict_set k v d) = if decide (k ∈ keys d) then keys d else keys d ++ [k].
Proof.
  unfold keys. induction d as [|[k' v'] d IH]; csimpl.
  - done.
  - destruct (decide (k' = k)) as [->|Hne]; csimpl.
    + rewrite decide_True by left. done.
    + rewrite IH. destruct (decide (k ∈ d.*1)) as [Hin|Hin].
      * rewrite decide_True by (by right). done.
      * rewrite decide_False; [done|].
        intros [?|?]%elem_of_cons; congruence.
Qed.

Lemma dict_get_dict_set k k' v d :
  dict_get k' (dict_set k v d) = if decide (k = k') then Some v else dict_get k' d.
Proof.
  induction d as [|[k0 v0] d IH]; simpl.
  - by destruct (decide (k = k')).
  - destruct (decide (k0 = k)) as [->|Hne]; simpl.
    + by destruct (decide (k = k')).
    + rewrite IH. destruct (decide (k0 = k')) as [->|?]; [|done].
      by rewrite decide_False by congruence.
Qed.

Lemma dict_set_NoDup k v d : NoDup (keys d) → NoDup (keys (dict_set k v d)).
Proof.
  intros Hd. rewrite keys_dict_set. case_decide; [done|].
  apply NoDup_app. split_and!; [done| |apply NoDup_singleton].
  intros x Hx Hk%list_elem_of_singleton. by subst.
Qed.

Lemma dict_get_elem k v d :
  NoDup (keys d) → (k, v) ∈ d → dict_get k d = Some v.
Proof.
  unfold keys. induction d as [|[k' v'] d IH]; simpl.
  - by intros _ ?%elem_of_nil.
  - intros [Hk' Hd]%NoDup_cons [[= -> ->]|Hin]%elem_of_cons.
    + by rewrite decide_True.
    + rewrite decide_False; [by apply IH|].
      intros ->. apply Hk'. apply list_elem_of_fmap. by exists (k, v).
Qed.

Lemma dict_of_snoc ws k v : dict_of (ws ++ [(k, v)]) = dict_set k v (dict_of ws).
Proof. unfold dict_of. by rewrite foldl_snoc. Qed.

Lemma first_occurrences_elem (ks : list K) k :
  k ∈ first_occurrences ks ↔ k ∈ ks.
Proof.
  induction ks as [|k' ks IH]; simpl; [done|].
  rewrite !elem_of_cons, list_elem_of_filter, IH.
  destruct (decide (k = k')); tauto.
Qed.

Lemma first_occurrences_NoDup (ks : list K) : NoDup (first_occurrences ks).
Proof.
  induction ks as [|k ks IH]; simpl; [constructor|].
  apply NoDup_cons. split; [|by apply NoDup_filter].
  rewrite list_elem_of_filter. by intros [? _].
Qed.

Lemma first_occurrences_snoc (ks : list K) k :
  first_occurrences (ks ++ [k]) =
    if decide (k ∈ ks) then first_occurrences ks else first_occurrences ks ++ [k].
Proof.
  induction ks as [|k' ks IH]; simpl.
  - done.
  - rewrite IH.
    destruct (decide (k ∈ k' :: ks)) as [Hin|Hin];
      destruct (decide (k ∈ ks)) as [Hin'|Hin']; simpl.
    + done.
    + apply elem_of_cons in Hin as [->|?]; [|done].
      by rewrite filter_app, filter_cons_False, filter_nil, app_nil_r by auto.
    + destruct Hin. by right.
    + rewrite filter_app, filter_cons_True, filter_nil; [done|].
      intros ->. apply Hin. by left.
Qed.

(** Keys stand in the order of their first assignment. *)
Lemma keys_dict_of ws : keys (dict_of ws) = first_occurrences ws.*1.
Proof.
  induction ws as [|[k v] ws IH] using rev_ind; [done|].
  rewrite dict_of_snoc, keys_dict_set, IH, fmap_app. simpl.
  rewrite first_occurrences_snoc.
  destruct (decide (k ∈ ws.*1)) as [Hin|Hin].
  - rewrite decide_True by (by apply first_occurrences_elem). done.
  - rewrite decide_False by (by rewrite first_occurrences_elem). done.
Qed.

Lemma dict_of_NoDup ws : NoDup (keys (dict_of ws)).
Proof. rewrite keys_dict_of. apply first_occurrences_NoDup. Qed.

Lemma last_write_snoc ws k k' v :
  last_write k' (ws ++ [(k, v)]) = if decide (k = k') then Some v else last_write k' ws.
Proof.
  induction ws as [|[k0 v0] ws IH]; simpl; [done|].
  rewrite IH. destruct (decide (k = k')); [done|]. done.
Qed.

(** Every key holds the value of its last assignment. *)
Lemma dict_get_dict_of ws k : dict_get k (dict_of ws) = last_write k ws.
Proof.
  induction ws as [|[k' v] ws IH] using rev_ind; [done|].
  by rewrite dict_of_snoc, dict_get_dict_set, last_write_snoc, IH.
Qed.

Lemma keys_nil_values d : keys d = [] → values d = [].
Proof. unfold keys, values. by intros ->%fmap_nil_inv. Qed.
End dict_facts.

(** ** The loops of [build_response] *)

Lemma mapM_result_Ok {A B} (f : A → result B) (l : list A) (k : list B) :
  mapM f l = Ok k → Forall2 (λ x y, f x = Ok y) l k.
Proof.
  revert k. induction l as [|x l IH]; intros k; simpl.
  - intros [= <-]. constructor.
  - destruct (f x) as [y|e] eqn:Hx; simpl; [|done].
    destruct (mapM f l) as [k'|e]; simpl; [|done].
    intros [= <-]. constructor; auto.
Qed.

Lemma discovery_keyed selected_obj kv : discovery selected_obj = Ok kv → keyed kv.
Proof.
  unfold discovery. intros (attributes & _ & [= <-])%result_bind_Ok. done.
Qed.

Lemma discoveries_keyed rows resource ds :
  discoveries rows resource = Ok ds → Forall keyed ds.
Proof.
  unfold discoveries. intros (dss & Hdss%mapM_result_Ok & ->)%result_fmap_Ok.
  apply Forall_join. induction Hdss as [|pair ds l k Hds _ IH]; constructor; [|done].
  unfold discoveries_of in Hds.
  apply result_bind_Ok in Hds as (selected_objs & _ & Hds%mapM_result_Ok).
  clear IH. induction Hds; constructor; eauto using discovery_keyed.
Qed.

Lemma dict_set_Forall {K V} `{EqDecision K} (P : K * V → Prop) k v (d : dict K V) :
  P (k, v) → Forall P d → Forall P (dict_set k v d).
Proof.
  intros Hkv. induction 1 as [|[k' v'] d Hx Hd IH]; simpl.
  - by repeat constructor.
  - destruct (decide (k' = k)) as [->|?]; constructor; auto.
Qed.

Lemma dict_of_Forall {K V} `{EqDecision K} (P : K * V → Prop) (ws : list (K * V)) :
  Forall P ws → Forall P (dict_of ws).
Proof.
  induction ws as [|[k v] ws IH] using rev_ind; [constructor|].
  intros [Hws Hkv]%Forall_app. rewrite Forall_singleton in Hkv.
  rewrite dict_of_snoc. apply dict_set_Forall; [done|by apply IH].
Qed.

Lemma keyed_values_keys (d : dict Key JAResource) :
  Forall keyed d → key_of <$> values d = out_key <$> keys d.
Proof.
  unfold values, keys. induction 1 as [|[k v] d Hkv _ IH]; csimpl; [done|].
  unfold keyed in Hkv. simpl in Hkv. by f_equal.
Qed.

Lemma include_selected_discovery selected_obj d :
  include_selected selected_obj d =
    kv ← discovery selected_obj; Ok (dict_set kv.1 kv.2 d).
Proof.
  unfold include_selected, discovery.
  by destruct (Read (resource selected_obj) (obj selected_obj)).
Qed.

Lemma for_each_selected selected_objs (d : dict Key JAResource) :
  for_each selected_objs include_selected d =
    ws ← mapM discovery selected_objs; Ok (foldl (λ d kv, dict_set kv.1 kv.2 d) d ws).
Proof.
  revert d. induction selected_objs as [|so sos IH]; intros d; simpl; [done|].
  rewrite include_selected_discovery.
  destruct (discovery so) as [kv|e]; simpl; [|done].
  rewrite IH. by destruct (mapM discovery sos).
Qed.

Lemma for_each_inclusions resource row incs (d : dict Key JAResource) :
  for_each incs (λ inclusion included_resources,
      selected_objs ← get_related (resource_class_of resource) row inclusion;
      for_each selected_objs include_selected included_resources) d =
    wss ← mapM (discoveries_of resource) (map (λ inc, (row, inc)) incs);
    Ok (foldl (λ d kv, dict_set kv.1 kv.2 d) d (mjoin wss)).
Proof.
  revert d. induction incs as [|inc incs IH]; intros d; simpl; [done|].
  change (discoveries_of resource (row, inc)) with
    (get_related (resource_class_of resource) row inc ≫= mapM discovery).
  destruct (get_related _ row inc) as [sos|e]; simpl; [|done].
  rewrite for_each_selected.
  destruct (mapM discovery sos) as [ws|e]; simpl; [|done].
  rewrite IH. destruct (mapM _ (map _ incs)) as [wss|e]; simpl; [|done].
  by rewrite foldl_app.
Qed.

Lemma for_each_rows resource rows (d : dict Key JAResource) :
  for_each rows (λ row included_resources,
    for_each (inclusions resource) (λ inclusion included_resources,
      selected_objs ← get_related (resource_class_of resource) row inclusion;
      for_each selected_objs include_selected included_resources)
    included_resources) d =
    wss ← mapM (discoveries_of resource) (list_prod rows (inclusions resource));
    Ok (foldl (λ d kv, dict_set kv.1 kv.2 d) d (mjoin wss)).
Proof.
  revert d. induction rows as [|row rows IH]; intros d; simpl; [done|].
  rewrite for_each_inclusions, mapM_result_app.
  destruct (mapM _ (map _ _)) as [wss1|e]; simpl; [|done].
  rewrite IH. destruct (mapM _ (list_prod _ _)) as [wss2|e]; simpl; [|done].
  by rewrite join_app, foldl_app.
Qed.

(** The dictionary of [build_response] is the one the discoveries, written
    one after the other, build. *)
Lemma collect_included_discoveries rows resource :
  collect_included rows resource = dict_of <$> discoveries rows resource.
Proof.
  unfold collect_included, discoveries. rewrite for_each_rows.
  by destruct (mapM _ _).
Qed.

Lemma build_response_Ok rows resource resp :
  build_response rows resource = Ok resp ↔
  ∃ ds, discoveries (rows_list rows) resource = Ok ds
        ∧ data resp = data_of rows resource
        ∧ included resp = values (dict_of ds).
Proof.
  unfold build_response. fold (rows_list rows).
  rewrite collect_included_discoveries.
  destruct (discoveries _ _) as [ds|e]; simpl.
  - destruct rows as [row|rows]; simpl.
    + split.
      * intros [= <-]. eauto.
      * intros (? & [= <-] & Hdata & Hinc). destruct resp; simplify_eq/=. done.
    + split.
      * intros [= <-]. eauto.
      * intros (? & [= <-] & Hdata & Hinc). destruct resp; simplify_eq/=. done.
  - split; [done|]. by intros (? & ? & _).
Qed.

Lemma list_prod_nil_r {A B} (l : list A) : list_prod l (@nil B) = [].
Proof. by induction l. Qed.

Lemma discoveries_no_inclusions rows resource :
  inclusions resource = [] → discoveries rows resource = Ok [].
Proof. unfold discoveries. intros ->. by rewrite list_prod_nil_r. Qed.

(** The response in terms of the discoveries, for each shape of [rows]. *)
Lemma build_response_Row row resource :
  build_response (Row row) resource =
    (λ ds, JAResponseSingle (primary resource row) (values (dict_of ds)))
      <$> discoveries [row] resource.
Proof.
  unfold build_response. rewrite collect_included_discoveries.
  by destruct (discoveries _ _).
Qed.

Lemma build_response_RowList rows resource :
  build_response (RowList rows) resource =
    (λ ds, JAResponseList (primary resource <$> rows) (values (dict_of ds)))
      <$> discoveries rows resource.
Proof.
  unfold build_response. rewrite collect_included_discoveries.
  by destruct (discoveries _ _).
Qed.

(** Two instances of one resource class answer alike when their inclusions
    lead to the same discoveries. *)
Lemma build_response_same_discoveries rows resource resource' :
  resource_class_of resource = resource_class_of resource' →
  discoveries (rows_list rows) resource = discoveries (rows_list rows) resource' →
  build_response rows resource = build_response rows resource'.
Proof.
  intros Hcls Hds. destruct rows as [row|rows].
  - rewrite !build_response_Row. simpl in Hds. rewrite Hds.
    unfold primary. by rewrite Hcls.
  - rewrite !build_response_RowList. simpl in Hds. rewrite Hds.
    unfold primary. by rewrite Hcls.
Qed.

Lemma build_response_no_inclusions rows resource :
  inclusions resource = [] →
  ∃ resp, build_response rows resource = Ok resp
          ∧ data resp = data_of rows resource ∧ included resp = [].
Proof.
  intros Hinc. destruct rows as [row|rows].
  - rewrite build_response_Row, discoveries_no_inclusions by done. by eexists.
  - rewrite build_response_RowList, discoveries_no_inclusions by done. by eexists.
Qed.

(** Paths for which [get_related] selects nothing add no discoveries. *)
Lemma discoveries_filter rows cls paths (unknown : list Inclusion) :
  (∀ row path, row ∈ rows → path ∈ unknown → get_related cls row path = Ok []) →
  discoveries rows {| resource_class_of := cls; inclusions := paths |} =
  discoveries rows {| resource_class_of := cls;
                      inclusions := filter (λ path, path ∉ unknown) paths |}.
Proof.
  unfold discoveries. simpl.
  set (f := λ pair : BaseModel * Inclusion,
              get_related cls pair.1 pair.2 ≫= mapM discovery).
  change (discoveries_of {| resource_class_of := cls; inclusions := paths |})
    with f.
  change (discoveries_of {| resource_class_of := cls; inclusions := filter _ paths |})
    with f.
  intros Hunknown.
  induction rows as [|row rows IH]; [done|]. simpl.
  rewrite !mapM_result_app.
  assert (mjoin <$> mapM f (map (λ y, (row, y)) paths) =
          mjoin <$> mapM f (map (λ y, (row, y)) (filter (λ path, path ∉ unknown) paths)))
    as Hrow.
  { clear IH. induction paths as [|path paths IHp]; [done|].
    destruct (decide (path ∈ unknown)) as [Hin|Hout].
    - rewrite filter_cons_False by (by intros Hn; apply Hn). rewrite <-IHp. simpl.
      change (f (row, path)) with (get_related cls row path ≫= mapM discovery).
      rewrite Hunknown by (done || left). simpl.
      by destruct (mapM f _).
    - rewrite filter_cons_True by done. simpl.
      destruct (f (row, path)) as [ds|e]; simpl; [|done].
      destruct (mapM f (map _ paths)) as [k|e],
               (mapM f (map _ (filter _ paths))) as [k'|e'];
        simplify_eq/=; congruence. }
  assert (mjoin <$> mapM f (list_prod rows paths) =
          mjoin <$> mapM f (list_prod rows (filter (λ path, path ∉ unknown) paths)))
    as Hrows.
  { apply IH. intros r p Hr. apply Hunknown. by right. }
  destruct (mapM f (map _ paths)) as [k1|e1],
           (mapM f (map _ (filter _ paths))) as [k1'|e1']; simplify_eq/=;
    [|done].
  destruct (mapM f (list_prod rows paths)) as [k2|e2],
           (mapM f (list_prod rows (filter _ paths))) as [k2'|e2'];
    simplify_eq/=; [|done].
  rewrite !join_app. congruence.
Qed.

(** ** The included objects of a response *)







(** C2, as the code has it.  When a key is discovered more than once,
    the entry left in [included] is the one built from the last discovery of
    that key: every assignment replaces the value stored before it
    (last write wins). *)
Theorem included_last_write_wins rows resource resp ds :
  build_response rows resource = Ok resp →
  discoveries (rows_list rows) resource = Ok ds →
  ∀ entry, entry ∈ included resp →
    ∃ k, key_of entry = out_key k ∧ last_write k ds = Some entry.
Proof.
  intros (ds' & Hds & _ & ->)%build_response_Ok Hds'.
  assert (ds' = ds) as -> by congruence.
  intros entry ([k entry'] & -> & Hin)%list_elem_of_fmap. simpl.
  assert (keyed (k, entry')) as Hk.
  { eapply Forall_forall; [|exact Hin].
    eapply dict_of_Forall, discoveries_keyed, Hds. }
  exists k. split; [done|]. rewrite <-dict_get_dict_of.
  apply dict_get_elem; [apply dict_of_NoDup|done].
Qed.

Lemma included_last_write_wins_witness :
  ∃ k,
    key_of (author_entry "Anne") = out_key k
    ∧ last_write k
        [(("author", IdInt 7), author_entry "Ann");
         (("author", IdInt 7), author_entry "Anne")]
      = Some (author_entry "Anne").
Proof.
  eapply (included_last_write_wins (Row post1)
            (get_resource post_router
               (request_with (Some (py "author,editor"))))).
  - vm_compute. reflexivity.
  - vm_compute. reflexivity.
  - vm_compute. left.
Defined.

(** C2, as the specification states it, fails: a post whose [author] and
    [editor] are two versions of author 7 keeps the editor's version, the
    later discovery, not the first. *)
Lemma first_write_does_not_win :
  let resource :=
    get_resource post_router (request_with (Some (py "author,editor"))) in
  let discovered :=
    [(("author", IdInt 7), author_entry "Ann");
     (("author", IdInt 7), author_entry "Anne")] in
  discoveries [post1] resource = Ok discovered
  ∧ build_response (Row post1) resource
    = Ok (JAResponseSingle (primary resource post1) [author_entry "Anne"])
  ∧ first_write ("author", IdInt 7) discovered = Some (author_entry "Ann")
  ∧ author_entry "Ann" ≠ author_entry "Anne".
Proof. repeat split; try (vm_compute; reflexivity). discriminate. Qed.

(** C7.  [included] lists the keys in the order in which they are first
    discovered while the rows and the inclusions are gone through; a key that
    is discovered again stays where it is. *)
Theorem included_first_discovered_order rows resource resp ds :
  build_response rows resource = Ok resp →
  discoveries (rows_list rows) resource = Ok ds →
  key_of <$> included resp = out_key <$> first_occurrences ds.*1.
Proof.
  intros (ds' & Hds & _ & ->)%build_response_Ok Hds'.
  assert (ds' = ds) as -> by congruence.
  rewrite keyed_values_keys, keys_dict_of; [done|].
  eapply dict_of_Forall, discoveries_keyed, Hds.
Qed.

Lemma included_first_discovered_order_witness :
  ∃ resp (ds : list (Key * JAResource)),
    build_response (RowList [post1; post2])
      (get_resource post_router (request_with (Some (py "reviewers,author"))))
    = Ok resp
    ∧ ds.*1 = [("author", IdInt 8); ("author", IdInt 7); ("author", IdInt 7);
               ("author", IdInt 8); ("author", IdInt 7); ("author", IdInt 7)]
    ∧ key_of <$> included resp = out_key <$> first_occurrences ds.*1.
Proof.
  eexists _, _. split; [vm_compute; reflexivity|].
  split;
    [|eapply (included_first_discovered_order (RowList [post1; post2])
                (get_resource post_router
                   (request_with (Some (py "reviewers,author")))))].
  2: vm_compute; reflexivity.
  2: vm_compute; reflexivity.
  reflexivity.
Defined.

(** C10.  The included entries are those of one [get_related] call for each
    pair of a primary row and a whole inclusion path, written under the key
    (resource name, object id); no call is made on a part of a path. *)
Theorem included_from_whole_paths rows resource :
  included <$> build_response rows resource =
  (λ ds, values (dict_of ds)) <$> discoveries (rows_list rows) resource.
Proof.
  destruct rows as [row|rows].
  - rewrite build_response_Row. simpl. by destruct (discoveries _ _).
  - rewrite build_response_RowList. simpl. by destruct (discoveries _ _).
Qed.

(** ** The shape and the primary data of a response *)

(** C5.  The shape follows from whether [rows] is a list and from nothing
    else: one row gives a single document whose [data] is the resource object
    of the row; a list, also a list of one row, gives a list document whose
    [data] holds the resource objects of the rows in their order. *)
Theorem shape_follows_rows resource :
  (∀ row,
     build_response (Row row) resource =
       (λ ds, JAResponseSingle (primary resource row) (values (dict_of ds)))
         <$> discoveries [row] resource)
  ∧ (∀ rows,
       build_response (RowList rows) resource =
         (λ ds, JAResponseList (primary resource <$> rows) (values (dict_of ds)))
           <$> discoveries rows resource).
Proof.
  split; intros; [apply build_response_Row|apply build_response_RowList].
Qed.

Example shape_of_one_row :
  build_response (Row post1) (get_resource post_router (request_with None))
  = Ok (JAResponseSingle
          {| ja_id := "1"; ja_type := "post"; ja_attributes := post1 |} []).
Proof. reflexivity. Qed.

Example shape_of_list_of_one_row :
  build_response (RowList [post1]) (get_resource post_router (request_with None))
  = Ok (JAResponseList
          [ {| ja_id := "1"; ja_type := "post"; ja_attributes := post1 |} ] []).
Proof. reflexivity. Qed.

(** The resource object of a primary row carries the id of the row, the name
    of the resource and, as its attributes, the row as it is. *)
Lemma primary_fields resource row :
  ja_id (primary resource row) = str (model_id row)
  ∧ ja_type (primary resource row) = name (meta (resource_class_of resource))
  ∧ ja_attributes (primary resource row) = row.
Proof. done. Qed.

(** C6.  The id and the type of the resource object under [data] are those
    of the row and of the resource, but its attributes are the row itself and
    not the row read through the [Read] schema of the resource, as the
    attributes of an included object are: post 1 keeps its [draft_notes],
    which [Read] leaves out. *)
Theorem primary_attributes_not_read_through_schema :
  let resource := get_resource post_router (request_with None) in
  let projected := {| model_id := IdInt 1; model_fields := [("title", VStr "Hello")] |} in
  build_response (Row post1) resource
    = Ok (JAResponseSingle
            {| ja_id := "1"; ja_type := "post"; ja_attributes := post1 |} [])
  ∧ Read (meta (resource_class_of resource)) post1 = Ok projected
  ∧ post1 ≠ projected.
Proof. repeat split. discriminate. Qed.

(** C8.  Without an [include] parameter, or with an empty one,
    [get_resource] gives no inclusions; [build_response] then returns, with an
    empty [included] and with the [data] that any other value of the parameter
    gives as well. *)
Theorem empty_include_identity self request rows :
  query_params_get request "include" = None
  ∨ query_params_get request "include" = Some (py "") →
  inclusions (get_resource self request) = []
  ∧ ∃ resp,
      build_response rows (get_resource self request) = Ok resp
      ∧ included resp = []
      ∧ ∀ request' resp',
          build_response rows (get_resource self request') = Ok resp' →
          data resp' = data resp.
Proof.
  intros Hinclude.
  assert (inclusions (get_resource self request) = []) as Hnone.
  { unfold get_resource. simpl. by destruct Hinclude as [-> | ->]. }
  split; [done|].
  destruct (build_response_no_inclusions rows _ Hnone) as (resp & Hresp & Hdata & Hinc).
  exists resp. split_and!; [done..|].
  intros request' resp' (_ & _ & Hdata' & _)%build_response_Ok.
  rewrite Hdata, Hdata'. by destruct rows.
Qed.

Lemma empty_include_identity_witness :
  inclusions (get_resource post_router (request_with None)) = []
  ∧ ∃ resp,
      build_response (RowList [post1; post2])
        (get_resource post_router (request_with None)) = Ok resp
      ∧ included resp = []
      ∧ ∀ request' resp',
          build_response (RowList [post1; post2])
            (get_resource post_router request') = Ok resp' →
          data resp' = data resp.
Proof.
  apply (empty_include_identity post_router (request_with None)).
  left. reflexivity.
Defined.

(** C9.  Inclusion paths for which [get_related] returns the empty list,
    as it is taken to do for a relationship the resource type does not have,
    raise no error and add nothing: the response is the one of the request
    without them, and when no other path is requested it is returned with an
    empty [included]. *)
Theorem unknown_relationship_adds_nothing rows cls paths (unknown : Inclusions) :
  (∀ row path,
     row ∈ rows_list rows → path ∈ unknown → get_related cls row path = Ok []) →
  build_response rows {| resource_class_of := cls; inclusions := paths |}
  = build_response rows
      {| resource_class_of := cls;
         inclusions := filter (λ path, path ∉ unknown) paths |}
  ∧ ((∀ path, path ∈ paths → path ∈ unknown) →
     ∃ resp,
       build_response rows {| resource_class_of := cls; inclusions := paths |}
         = Ok resp
       ∧ included resp = []).
Proof.
  intros Hunknown.
  assert (build_response rows {| resource_class_of := cls; inclusions := paths |}
          = build_response rows
              {| resource_class_of := cls;
                 inclusions := filter (λ path, path ∉ unknown) paths |}) as Heq.
  { apply build_response_same_discoveries; [done|].
    by apply discoveries_filter. }
  split; [done|]. intros Hall. rewrite Heq.
  destruct (build_response_no_inclusions rows
              {| resource_class_of := cls;
                 inclusions := filter (λ path, path ∉ unknown) paths |})
    as (resp & Hresp & _ & Hinc); [|by eauto].
  simpl. apply elem_of_nil_inv.
  intros path [Hout Hin]%list_elem_of_filter. apply Hout. by apply Hall.
Qed.

Lemma unknown_relationship_adds_nothing_witness :
  build_response (RowList [post1; post2])
    {| resource_class_of := PostResource;
       inclusions := [[py "nonexistent"]; [py "author"]] |}
  = build_response (RowList [post1; post2])
      {| resource_class_of := PostResource;
         inclusions := filter (λ path, path ∉ [[py "nonexistent"]])
                         [[py "nonexistent"]; [py "author"]] |}
  ∧ ((∀ path, path ∈ [[py "nonexistent"]; [py "author"]] → path ∈ [[py "nonexistent"]]) →
     ∃ resp,
       build_response (RowList [post1; post2])
         {| resource_class_of := PostResource;
            inclusions := [[py "nonexistent"]; [py "author"]] |} = Ok resp
       ∧ included resp = []).
Proof.
  apply (unknown_relationship_adds_nothing (RowList [post1; post2]) PostResource).
  intros row path _ ->%list_elem_of_singleton. reflexivity.
Defined.

Example include_nonexistent :
  build_response (Row post1)
    (get_resource post_router (request_with (Some (py "nonexistent"))))
  = Ok (JAResponseSingle
          {| ja_id := "1"; ja_type := "post"; ja_attributes := post1 |} []).
Proof. reflexivity. Qed.

(** ** Matching with derivatives *)

Lemma fullmatch_Void s : fullmatch Void s = false.
Proof. by induction s. Qed.

Lemma fullmatch_Eps s : fullmatch Eps s = true ↔ s = [].
Proof.
  destruct s as [|c s]; simpl; [done|]. rewrite fullmatch_Void. by split.
Qed.

Lemma fullmatch_Class p s :
  fullmatch (Class p) s = true ↔ ∃ c, s = [c] ∧ p c = true.
Proof.
  destruct s as [|c s]; simpl.
  - split; [done|]. by intros (? & ? & _).
  - destruct (p c) eqn:Hc.
    + rewrite fullmatch_Eps. split; [intros ->; eauto|]. by intros (? & [= <- ->] & _).
    + rewrite fullmatch_Void. split; [done|]. intros (? & [= <- _] & ?). congruence.
Qed.

Lemma fullmatch_Alt r1 r2 s :
  fullmatch (Alt r1 r2) s = fullmatch r1 s || fullmatch r2 s.
Proof. revert r1 r2. induction s as [|c s IH]; intros r1 r2; simpl; auto. Qed.

Lemma fullmatch_Cat r1 r2 (s : pystr) :
  fullmatch (Cat r1 r2) s = true ↔
  ∃ s1 s2 : pystr,
    s = s1 ++ s2 ∧ fullmatch r1 s1 = true ∧ fullmatch r2 s2 = true.
Proof.
  revert r1. induction s as [|c s IH]; intros r1; simpl.
  - rewrite andb_true_iff. split.
    + intros [??]. by exists [], [].
    + intros ([|??] & [|??] & Hs & ? & ?); by simplify_eq/=.
  - assert (fullmatch (Cat (deriv c r1) r2) s = true ↔
            ∃ s1 s2 : pystr,
              c :: s = (c :: s1) ++ s2
              ∧ fullmatch r1 (c :: s1) = true ∧ fullmatch r2 s2 = true)
      as Hstep.
    { rewrite IH. simpl. split; intros (s1 & s2 & Hs & ? & ?); exists s1, s2.
      - by rewrite Hs.
      - by simplify_eq. }
    destruct (nullable r1) eqn:Hnull.
    + rewrite fullmatch_Alt, orb_true_iff, Hstep. split.
      * intros [(s1 & s2 & ? & ? & ?)|?].
        -- by exists (c :: s1), s2.
        -- by exists [], (c :: s).
      * intros ([|c' s1] & s2 & Hs & H1 & H2).
        -- simpl in Hs. subst s2. by right.
        -- simpl in Hs. simplify_eq. left. by exists s1, s2.
    + rewrite Hstep. split.
      * intros (s1 & s2 & ? & ? & ?). by exists (c :: s1), s2.
      * intros ([|c' s1] & s2 & Hs & H1 & H2).
        -- simpl in H1. congruence.
        -- simpl in Hs. simplify_eq. by exists s1, s2.
Qed.

Lemma string_forall_app p (s1 s2 : pystr) :
  string_forall p (s1 ++ s2) = string_forall p s1 && string_forall p s2.
Proof.
  induction s1 as [|c s1 IH]; [done|]. simpl. by rewrite IH, andb_assoc.
Qed.

Lemma string_forall_impl (p q : char → bool) s :
  (∀ c, p c = true → q c = true) →
  string_forall p s = true → string_forall q s = true.
Proof.
  intros Hpq. induction s as [|c s IH]; simpl; [done|].
  rewrite !andb_true_iff. intros [??]. auto.
Qed.

(** The words of [r*] have only the characters the words of [r] have. *)
Lemma fullmatch_Star_forall p r s :
  (∀ s', fullmatch r s' = true → string_forall p s' = true) →
  fullmatch (Star r) s = true → string_forall p s = true.
Proof.
  intros Hr. remember (length s) as n eqn:Hn.
  revert s Hn. induction (lt_wf n) as [n _ IH]. intros [|c s] -> Hs; [done|].
  simpl in Hs. apply fullmatch_Cat in Hs as (s1 & s2 & -> & Hs1 & Hs2).
  rewrite app_comm_cons, string_forall_app, andb_true_iff. split.
  - by apply Hr.
  - eapply IH; [|done..]. simpl. rewrite length_app. lia.
Qed.

Lemma fullmatch_Plus_forall p s :
  fullmatch (Plus (Class p)) s = true → string_forall p s = true.
Proof.
  intros (s1 & s2 & -> & (c & -> & Hc)%fullmatch_Class & Hs2)%fullmatch_Cat.
  simpl. rewrite Hc. simpl. revert Hs2. apply fullmatch_Star_forall.
  intros s' (c' & -> & Hc')%fullmatch_Class. simpl. by rewrite Hc'.
Qed.

Lemma last_char_app_singleton (s : pystr) c : last_char (s ++ [c]) = Some c.
Proof.
  induction s as [|c' s IH]; [done|]. simpl. rewrite IH. by destruct s.
Qed.

Lemma char_eqb_eq (a b : char) : char_eqb a b = true ↔ a = b.
Proof. apply N.eqb_eq. Qed.

(** ** Accepted [include] strings *)

(** The pieces of a split keep the characters of the string, the separator
    apart. *)
Lemma split_pieces sep (p q : char → bool) s :
  (∀ c, p c = true → c ≠ sep → q c = true) →
  string_forall p s = true →
  Forall (λ piece, string_forall q piece = true) (split sep s).
Proof.
  intros Hpq. induction s as [|c s IH]; simpl.
  - by repeat constructor.
  - rewrite andb_true_iff. intros [Hc Hs]. specialize (IH Hs).
    destruct (decide (c = sep)) as [->|Hne]; [by constructor|].
    destruct (split sep s) as [|piece pieces].
    + repeat constructor. simpl. by rewrite Hpq.
    + apply Forall_cons in IH as [Hpiece Hpieces].
      constructor; [|done]. simpl. by rewrite Hpq.
Qed.

Section accepted.
Context {U : Unicode}.

(** Commas, dots and line feeds are no word characters. *)
Lemma is_word_not_separator c :
  is_word c = true → c ≠ ","%char ∧ c ≠ "."%char ∧ c ≠ line_feed.
Proof. intros Hc. split_and!; by intros ->. Qed.

(** The characters an accepted string is made of: word characters, dots
    and commas. *)
Lemma include_pattern_chars s :
  fullmatch include_pattern s = true →
  last_char s ≠ Some line_feed →
  string_forall (λ c, word_or_dot c || char_eqb c ",") s = true.
Proof.
  unfold include_pattern.
  intros (s1 & s23 & -> & Hs1%fullmatch_Plus_forall & Hs23)%fullmatch_Cat.
  apply fullmatch_Cat in Hs23 as (s2 & s3 & -> & Hs2 & Hs3).
  intros Hlast. rewrite !string_forall_app, !andb_true_iff. split_and!.
  - revert Hs1. apply string_forall_impl. intros c ->. done.
  - revert Hs2. apply fullmatch_Star_forall.
    intros s' (sc & sw & -> & (c & -> & Hc)%fullmatch_Class
               & Hsw%fullmatch_Plus_forall)%fullmatch_Cat.
    apply char_eqb_eq in Hc as <-. simpl.
    revert Hsw. apply string_forall_impl. intros c' ->. done.
  - unfold Dollar in Hs3. rewrite fullmatch_Alt, orb_true_iff in Hs3.
    destruct Hs3 as [->%fullmatch_Eps|(c & -> & Hc)%fullmatch_Class]; [done|].
    apply char_eqb_eq in Hc as <-. destruct Hlast.
    by rewrite app_assoc, last_char_app_singleton.
Qed.

(** C4, as the code has it.  The pattern lets dots stand anywhere among the
    word characters, and its [\w] is that of Python for [str]: any
    alphanumeric character, of whatever script, and the underscore.  It
    promises less than the grammar: in an accepted string that does not end in
    a line feed, every segment [get_resource] obtains consists of characters
    [\w] matches, but a segment may be empty, and its characters need not be
    ASCII. *)
Theorem accepted_include_segments self request include :
  query_params_get request "include" = Some include →
  include_query (Some include) = true →
  last_char include ≠ Some line_feed →
  Forall (Forall (λ segment, string_forall is_word segment = true))
    (inclusions (get_resource self request)).
Proof.
  intros Hget Haccepted Hlast. unfold get_resource. simpl. rewrite Hget.
  destruct (truthy include); [|constructor].
  unfold parse_include. apply Forall_fmap.
  eapply Forall_impl.
  - eapply (split_pieces _ _ word_or_dot); [|by apply include_pattern_chars].
    intros c [?|Hc%char_eqb_eq]%orb_true_iff Hne; done.
  - intros path Hpath. simpl. revert Hpath. apply split_pieces.
    intros c [?|Hc%char_eqb_eq]%orb_true_iff Hne; done.
Qed.
End accepted.

Lemma accepted_include_segments_witness :
  Forall (Forall (λ segment, string_forall (is_word (U := latin1)) segment = true))
    (inclusions (get_resource post_router
                   (request_with (Some (py "author..name,tags."))))).
Proof.
  apply (accepted_include_segments (U := latin1) post_router
           (request_with (Some (py "author..name,tags.")))
           (py "author..name,tags.")).
  - reflexivity.
  - vm_compute. reflexivity.
  - vm_compute. discriminate.
Defined.

(** C4, as the specification states it, fails twice.  ["a..b"] passes the
    pattern and [get_resource] hands an empty segment on; and a string of the
    one letter U+00E9, which is not of [[A-Za-z0-9_]], passes as well. *)
Lemma accepted_include_not_in_grammar :
  include_query (U := latin1) (Some (py "a..b")) = true
  ∧ inclusions (get_resource post_router (request_with (Some (py "a..b"))))
    = [[py "a"; py ""; py "b"]]
  ∧ well_formed
      (inclusions (get_resource post_router (request_with (Some (py "a..b")))))
    = false
  ∧ include_query (U := latin1) (Some [233%N]) = true
  ∧ inclusions (get_resource post_router (request_with (Some [233%N])))
    = [[[233%N]]]
  ∧ well_formed
      (inclusions (get_resource post_router (request_with (Some [233%N]))))
    = false.
Proof. by vm_compute. Qed.

(** The line feed that [$] lets through ends up in the last segment. *)
Example accepted_include_with_line_feed :
  let include := py "a" ++ [line_feed] in
  include_query (U := latin1) (Some include) = true
  ∧ well_formed (inclusions (get_resource post_router (request_with (Some include))))
    = false.
Proof. by vm_compute. Qed.

(** What the grammar describes is accepted and parsed as it reads. *)
Example accepted_include_paths :
  include_query (U := latin1) (Some (py "author.publisher,comments")) = true
  ∧ inclusions (get_resource post_router
                  (request_with (Some (py "author.publisher,comments"))))
    = [[py "author"; py "publisher"]; [py "comments"]]
  ∧ include_query (U := latin1) (Some (py "author,,comments")) = false
  ∧ include_query (U := latin1) (Some (py "author-name")) = false
  ∧ include_query (U := latin1) (Some (py "")) = false.
Proof. by vm_compute. Qed.

(** ** The schema closure *)

Section closure_facts.
Context {Schema : Type} `{Countable Schema}.
Implicit Types (graph : Graph Schema) (V W : gset Schema) (a b c s t : Schema).

Lemma unvisited_path_start graph V a b : unvisited_path graph V a b → a ∉ V.
Proof. by destruct 1. Qed.

Lemma unvisited_path_end graph V a b : unvisited_path graph V a b → b ∉ V.
Proof. by induction 1. Qed.

Lemma unvisited_path_mono graph V V' a b :
  V' ⊆ V → unvisited_path graph V a b → unvisited_path graph V' a b.
Proof.
  intros HV. induction 1 as [a Ha|a b c Ha Hab _ IH].
  - apply unvisited_here. set_solver.
  - eapply unvisited_step; [set_solver|done..].
Qed.

Lemma unvisited_path_snoc graph V a b c :
  unvisited_path graph V a b → edge graph b c → c ∉ V →
  unvisited_path graph V a c.
Proof.
  intros Hab Hbc Hc. induction Hab as [a Ha|a b b' Ha Hab _ IH].
  - eapply unvisited_step; [done..|]. by apply unvisited_here.
  - eapply unvisited_step; [done..|]. by apply IH.
Qed.

(** A chain either stays clear of [W] or passes through it. *)
Lemma unvisited_path_split graph V W a b :
  unvisited_path graph V a b →
  unvisited_path graph (V ∪ W) a b ∨ ∃ z, z ∈ W ∧ unvisited_path graph V z b.
Proof.
  induction 1 as [a Ha|a b c Ha Hab Hbc IH].
  - destruct (decide (a ∈ W)) as [Hin|Hout].
    + right. exists a. split; [done|]. by apply unvisited_here.
    + left. apply unvisited_here. set_solver.
  - destruct (decide (a ∈ W)) as [Hin|Hout].
    + right. exists a. split; [done|]. by eapply unvisited_step.
    + destruct IH as [IH|IH]; [|by right].
      left. eapply unvisited_step; [set_solver|done..].
Qed.

(** A chain that enters a set closed under unvisited successors ends in it. *)
Lemma unvisited_path_closed graph V W a b :
  (∀ z y, z ∈ W → edge graph z y → y ∉ V → y ∈ W) →
  unvisited_path graph V a b → a ∈ W → b ∈ W.
Proof.
  intros Hclosed. induction 1 as [a Ha|a b c Ha Hab Hbc IH]; [done|].
  intros Hin. apply IH. eapply Hclosed; [done..|].
  by eapply unvisited_path_start.
Qed.

Lemma unvisited_path_rtc graph a b :
  unvisited_path graph ∅ a b ↔ rtc (edge graph) a b.
Proof.
  split.
  - induction 1; [done|]. by eapply rtc_l.
  - induction 1; [by apply unvisited_here|].
    eapply unvisited_step; [set_solver|done..].
Qed.

Lemma closure_of_nil graph V : closure_of graph [] V [] V.
Proof.
  split_and!; [constructor|set_solver|].
  intros s. split; [by intros ?%elem_of_nil|].
  by intros (t & ?%elem_of_nil & _).
Qed.

Lemma closure_of_skip graph V t ts out V' :
  t ∈ V → closure_of graph ts V out V' → closure_of graph (t :: ts) V out V'.
Proof.
  intros Ht (Hnodup & HV' & Hout). split_and!; [done..|].
  intros s. rewrite Hout. split.
  - intros (t' & ? & ?). exists t'. split; [by right|done].
  - intros (t' & [->|?]%elem_of_cons & Hpath); [|by eauto].
    by apply unvisited_path_start in Hpath.
Qed.

Lemma closure_of_step graph V t ts out1 V2 out2 V3 :
  t ∉ V →
  closure_of graph (targets (relationships_of graph t)) ({[t]} ∪ V) out1 V2 →
  closure_of graph ts V2 out2 V3 →
  closure_of graph (t :: ts) V (t :: out1 ++ out2) V3.
Proof.
  intros Ht (Hnodup1 & -> & Hout1) (Hnodup2 & -> & Hout2).
  assert (∀ s, s ∈ out1 → s ∉ {[t]} ∪ V) as Hfresh1.
  { intros s (u & _ & Hpath)%Hout1. by eapply unvisited_path_end. }
  assert (∀ s, s ∈ out2 → s ∉ {[t]} ∪ V ∪ list_to_set out1) as Hfresh2.
  { intros s (u & _ & Hpath)%Hout2. by eapply unvisited_path_end. }
  set (W := ({[t]} ∪ list_to_set out1 : gset Schema)).
  assert (∀ z y, z ∈ W → edge graph z y → y ∉ V → y ∈ W) as Hclosed.
  { intros z y Hz Hzy Hy. destruct (decide (y = t)) as [->|Hne]; [set_solver|].
    assert (y ∉ {[t]} ∪ V) as Hy' by set_solver.
    apply elem_of_union_r, elem_of_list_to_set, Hout1.
    apply elem_of_union in Hz as [->%elem_of_singleton|Hz%elem_of_list_to_set].
    - exists y. split; [done|]. by apply unvisited_here.
    - apply Hout1 in Hz as (u & Hu & Hpath). exists u. split; [done|].
      by eapply unvisited_path_snoc. }
  split_and!.
  - apply NoDup_cons. split.
    + intros [Hin|Hin]%elem_of_app.
      * apply Hfresh1 in Hin. set_solver.
      * apply Hfresh2 in Hin. set_solver.
    + apply NoDup_app. split_and!; [done| |done].
      intros s Hs1 Hs2%Hfresh2. set_solver.
  - rewrite list_to_set_cons, list_to_set_app_L. set_solver.
  - intros s. split.
    + intros [->|[Hs|Hs]%elem_of_app]%elem_of_cons.
      * exists t. split; [by left|]. by apply unvisited_here.
      * apply Hout1 in Hs as (u & Hu & Hpath). exists t. split; [by left|].
        eapply unvisited_step; [done..|].
        eapply unvisited_path_mono; [|done]. set_solver.
      * apply Hout2 in Hs as (t' & Ht' & Hpath). exists t'. split; [by right|].
        eapply unvisited_path_mono; [|done]. set_solver.
    + assert (∀ z, z ∈ W → unvisited_path graph V z s → s ∈ t :: out1 ++ out2)
        as HW.
      { intros z Hz Hpath.
        pose proof (unvisited_path_closed _ _ _ _ _ Hclosed Hpath Hz) as Hs.
        apply elem_of_union in Hs as [->%elem_of_singleton|Hs%elem_of_list_to_set].
        - by left.
        - right. apply elem_of_app. by left. }
      intros (t' & [->|Ht']%elem_of_cons & Hpath).
      * apply (HW t); [set_solver|done].
      * destruct (unvisited_path_split _ _ W _ _ Hpath) as [Hclear|(z & Hz & Hzs)].
        -- right. apply elem_of_app. right. apply Hout2. exists t'.
           split; [done|]. eapply unvisited_path_mono; [|done]. set_solver.
        -- by apply (HW z).
Qed.
End closure_facts.

Section closure_run.
Context {Schema : Type} `{Countable Schema}.
Implicit Types (graph : Graph Schema) (U V : gset Schema).
Implicit Types (relationships : Relationships Schema).

Lemma edge_universe graph relationships a b :
  edge graph a b → b ∈ universe graph relationships.
Proof.
  unfold edge, relationships_of, universe. intros Hb.
  destruct (graph !! a) as [rels|] eqn:Ha; simpl in Hb;
    [|by apply elem_of_nil in Hb].
  apply elem_of_union_r, elem_of_list_to_set, list_elem_of_join.
  exists (targets rels). split; [done|].
  apply list_elem_of_fmap. exists rels. split; [done|].
  apply list_elem_of_fmap. exists (a, rels). split; [done|].
  by apply (elem_of_map_to_list graph a rels).
Qed.

Lemma visited_or_set_nonempty V : V ≠ ∅ → visited_or_set (Some V) = V.
Proof. intros. unfold visited_or_set. by rewrite decide_False. Qed.

Lemma size_unvisited_lt U V t :
  t ∈ U → t ∉ V → size (U ∖ ({[t]} ∪ V)) < size (U ∖ V).
Proof.
  intros HU HV. apply subset_size. apply strict_spec_alt. split; [set_solver|].
  intros Heq. assert (t ∈ U ∖ V) as Hin by set_solver.
  rewrite <-Heq in Hin. set_solver.
Qed.

(** The loop, given that the recursive calls do what they should. *)
Lemma visit_relationships graph U fuel infos acc V :
  (∀ a b, edge graph a b → b ∈ U) →
  (∀ relationships V',
     (∀ t, t ∈ targets relationships → t ∈ U) →
     V' ≠ ∅ → size (U ∖ V') < fuel →
     ∃ out V'',
       get_schemas_from_relationships fuel graph relationships (Some V')
         = Some (out, V'')
       ∧ closure_of graph (targets relationships) V' out V'') →
  size (U ∖ V) < S fuel →
  (∀ t, t ∈ schema_with_relationships <$> infos → t ∈ U) →
  ∃ out V',
    for_each_opt infos
      (visit_relationship graph (get_schemas_from_relationships fuel graph))
      (acc, V) = Some (acc ++ out, V')
    ∧ closure_of graph (schema_with_relationships <$> infos) V out V'.
Proof.
  intros Hedges Hrec. revert acc V.
  induction infos as [|info infos IH]; intros acc V Hsize HU.
  - exists [], V. rewrite app_nil_r. split; [done|]. apply closure_of_nil.
  - set (t := schema_with_relationships info).
    assert (∀ t', t' ∈ schema_with_relationships <$> infos → t' ∈ U) as HU'.
    { intros t' Ht'. apply HU. by right. }
    simpl. fold t. destruct (decide (t ∈ V)) as [Hin|Hout]; simpl.
    + destruct (IH acc V Hsize HU') as (out & V' & Hrun & Hclosure).
      exists out, V'. split; [done|]. by apply closure_of_skip.
    + assert (t ∈ U) as HtU by (apply HU; left).
      destruct (Hrec (relationships_of graph t) ({[t]} ∪ V))
        as (out1 & V2 & Hrun1 & Hclosure1); [|set_solver|..].
      { intros b Hb. by apply (Hedges t). }
      { pose proof (size_unvisited_lt U V t HtU Hout). lia. }
      rewrite Hrun1. simpl.
      assert (visited_after ({[t]} ∪ V) V2 = V2) as ->.
      { unfold visited_after. rewrite decide_False; [done|set_solver]. }
      destruct (IH ((acc ++ [t]) ++ out1) V2) as (out2 & V3 & Hrun2 & Hclosure2);
        [|done|].
      { destruct Hclosure1 as (_ & -> & _).
        eapply Nat.le_lt_trans; [|exact Hsize].
        apply subseteq_size. set_solver. }
      exists (t :: out1 ++ out2), V3. split.
      * rewrite Hrun2. f_equal. f_equal.
        by rewrite <-!app_assoc.
      * by eapply closure_of_step.
Qed.

(** With fuel above the number of schemas still unvisited, the function
    returns, and returns the closure. *)
Lemma get_schemas_from_relationships_closure graph U fuel relationships visited :
  (∀ a b, edge graph a b → b ∈ U) →
  (∀ t, t ∈ targets relationships → t ∈ U) →
  size (U ∖ visited_or_set visited) < fuel →
  ∃ out V',
    get_schemas_from_relationships fuel graph relationships visited
      = Some (out, V')
    ∧ closure_of graph (targets relationships) (visited_or_set visited) out V'.
Proof.
  intros Hedges. revert relationships visited.
  induction fuel as [|fuel IH]; intros relationships visited HU Hsize; [lia|].
  simpl.
  apply (visit_relationships graph U fuel (values relationships) []); [done| |done..].
  intros relationships' V' HU' Hne Hsize'.
  destruct (IH relationships' (Some V')) as (out & V'' & Hrun & Hclosure).
  - done.
  - by rewrite visited_or_set_nonempty.
  - rewrite visited_or_set_nonempty in Hclosure by done. eauto.
Qed.

(** C3.  On any relationship graph, cycles of any length included, a
    call with no or an empty [visited] set returns once the fuel covers the
    schemas the graph mentions, and the list it returns holds every schema
    reachable from the root's relationships, and each of them once. *)
Theorem closure_terminates_reachable_once graph relationships visited
    (fuel : nat) :
  visited = None ∨ visited = Some ∅ →
  (closure_fuel graph relationships ≤ fuel)%nat →
  ∃ schemas V,
    get_schemas_from_relationships fuel graph relationships visited
      = Some (schemas, V)
    ∧ NoDup schemas
    ∧ ∀ schema, schema ∈ schemas ↔ reachable graph relationships schema.
Proof.
  intros Hvisited Hfuel.
  assert (visited_or_set visited = ∅) as Hempty.
  { destruct Hvisited as [-> | ->]; [done|]. unfold visited_or_set.
    by rewrite decide_True. }
  destruct (get_schemas_from_relationships_closure graph
              (universe graph relationships) fuel relationships visited)
    as (out & V' & Hrun & Hnodup & _ & Hout).
  - intros a b. apply edge_universe.
  - intros t Ht. unfold universe. set_solver.
  - unfold closure_fuel in Hfuel. rewrite Hempty.
    eapply Nat.le_lt_trans; [apply subseteq_size|]; [|exact Hfuel]. set_solver.
  - exists out, V'. split_and!; [done..|].
    intros schema. rewrite Hout, Hempty. unfold reachable.
    by setoid_rewrite unvisited_path_rtc.
Qed.
End closure_run.

Lemma closure_terminates_reachable_once_witness :
  ∃ schemas V,
    get_schemas_from_relationships 4 cyclic_graph
      (relationships_of cyclic_graph "A") None = Some (schemas, V)
    ∧ NoDup schemas
    ∧ ∀ schema,
        schema ∈ schemas
        ↔ reachable cyclic_graph (relationships_of cyclic_graph "A") schema.
Proof.
  apply closure_terminates_reachable_once.
  - by left.
  - vm_compute. lia.
Defined.

(** [A → B → A] with [C] below [B]: the closure from [A] holds [A] itself. *)
Example closure_of_cycle :
  fst <$> get_schemas_from_relationships 4 cyclic_graph
            (relationships_of cyclic_graph "A") None
  = Some ["B"; "A"; "C"].
Proof. by vm_compute. Qed.

(** A schema that refers to itself twice is listed once. *)
Example closure_of_self_reference :
  fst <$> get_schemas_from_relationships 2 self_graph
            (relationships_of self_graph "Node") (Some ∅)
  = Some ["Node"].
Proof. by vm_compute. Qed.

(** * Further properties *)

(** ** [build_response]: when it returns, and what it includes *)

Lemma mapM_result_returns {A B} (f : A → result B) (l : list A) :
  (∃ k, mapM f l = Ok k) ↔ ∀ x, x ∈ l → ∃ y, f x = Ok y.
Proof.
  induction l as [|x l IH]; simpl.
  - split; [by intros _ ? ?%elem_of_nil|by eexists].
  - split.
    + intros [k Hk]. destruct (f x) as [y|e] eqn:Hx; simpl in Hk; [|done].
      destruct (mapM f l) as [k'|e] eqn:Hl; simpl in Hk; [|done].
      intros x' [->|Hin]%elem_of_cons; [by eauto|].
      apply IH; by eauto.
    + intros Hall. destruct (Hall x) as [y ->]; [by left|]. simpl.
      destruct (proj2 IH) as [k ->]; [|by eexists].
      intros x' Hin. apply Hall. by right.
Qed.

Lemma Forall2_elem_of_l {A B} (P : A → B → Prop) l k x :
  Forall2 P l k → x ∈ l → ∃ y, y ∈ k ∧ P x y.
Proof.
  induction 1 as [|x' y' l k Hxy _ IH]; [by intros ?%elem_of_nil|].
  intros [->|Hin]%elem_of_cons.
  - exists y'. split; [by left|done].
  - destruct (IH Hin) as (y & ? & ?). exists y. split; [by right|done].
Qed.

Lemma Forall2_elem_of_r {A B} (P : A → B → Prop) l k y :
  Forall2 P l k → y ∈ k → ∃ x, x ∈ l ∧ P x y.
Proof.
  induction 1 as [|x' y' l k Hxy _ IH]; [by intros ?%elem_of_nil|].
  intros [->|Hin]%elem_of_cons.
  - exists x'. split; [by left|done].
  - destruct (IH Hin) as (x & ? & ?). exists x. split; [by right|done].
Qed.

Lemma elem_of_list_prod {A B} (l : list A) (k : list B) x y :
  (x, y) ∈ list_prod l k ↔ x ∈ l ∧ y ∈ k.
Proof. by rewrite !list_elem_of_In, in_prod_iff. Qed.

(** The discoveries exist when every call into the collaborators returns. *)
Lemma discoveries_returns rows res :
  (∃ ds, discoveries rows res = Ok ds) ↔
  ∀ row path, row ∈ rows → path ∈ inclusions res →
    ∃ selected_objs,
      get_related (resource_class_of res) row path = Ok selected_objs
      ∧ ∀ selected_obj, selected_obj ∈ selected_objs →
          ∃ attributes,
            Read (resource selected_obj) (obj selected_obj)
            = Ok attributes.
Proof.
  unfold discoveries.
  assert (∀ pair, (∃ ds, discoveries_of res pair = Ok ds) ↔
            ∃ selected_objs,
              get_related (resource_class_of res) pair.1 pair.2
              = Ok selected_objs
              ∧ ∀ selected_obj, selected_obj ∈ selected_objs →
                  ∃ attributes,
                    Read (resource selected_obj) (obj selected_obj)
                    = Ok attributes) as Hpair.
  { intros pair. unfold discoveries_of. split.
    - intros [ds (sos & Hsos & Hds)%result_bind_Ok]. exists sos. split; [done|].
      intros so Hso.
      destruct (proj1 (mapM_result_returns discovery sos)) with so
        as [kv Hkv]; [by eauto|done|].
      unfold discovery in Hkv. apply result_bind_Ok in Hkv as (a & ? & _). eauto.
    - intros (sos & -> & Hread). simpl. apply mapM_result_returns.
      intros so Hso. destruct (Hread so Hso) as [a Ha].
      unfold discovery. rewrite Ha. by eexists. }
  split.
  - intros [ds (dss & Hdss & _)%result_fmap_Ok] row path Hrow Hpath.
    apply (Hpair (row, path)).
    eapply (proj1 (mapM_result_returns (discoveries_of res) _)); [by eauto|].
    by apply elem_of_list_prod.
  - intros Hall.
    destruct (proj2 (mapM_result_returns (discoveries_of res)
                       (list_prod rows (inclusions res)))) as [dss ->].
    + intros [row path] [??]%elem_of_list_prod. apply Hpair. by apply Hall.
    + by eexists.
Qed.

Lemma build_response_returns_discoveries rows res :
  (∃ resp, build_response rows res = Ok resp) ↔
  ∃ ds, discoveries (rows_list rows) res = Ok ds.
Proof.
  split.
  - intros [resp (ds & ? & _)%build_response_Ok]. eauto.
  - intros [ds Hds]. destruct rows as [row|rows]; simpl in Hds.
    + rewrite build_response_Row, Hds. by eexists.
    + rewrite build_response_RowList, Hds. by eexists.
Qed.

(** X1.  [build_response] raises nothing of its own: when every
    [get_related] call for a primary row and a requested path returns, and
    [Read.from_orm] returns on every object selected, a response is
    returned. *)
Theorem build_response_returns rows res :
  (∀ row path, row ∈ rows_list rows → path ∈ inclusions res →
     ∃ selected_objs,
       get_related (resource_class_of res) row path = Ok selected_objs
       ∧ ∀ selected_obj, selected_obj ∈ selected_objs →
           ∃ attributes,
             Read (resource selected_obj) (obj selected_obj)
             = Ok attributes) →
  ∃ resp, build_response rows res = Ok resp.
Proof.
  intros Hall. apply build_response_returns_discoveries.
  by apply discoveries_returns.
Qed.

(** X2.  No exception of a collaborator is swallowed: a response is only
    returned when every [get_related] call for a primary row and a requested
    path has returned, and [Read.from_orm] has returned on every object
    selected. *)
Theorem build_response_propagates rows res resp :
  build_response rows res = Ok resp →
  ∀ row path, row ∈ rows_list rows → path ∈ inclusions res →
    ∃ selected_objs,
      get_related (resource_class_of res) row path = Ok selected_objs
      ∧ ∀ selected_obj, selected_obj ∈ selected_objs →
          ∃ attributes,
            Read (resource selected_obj) (obj selected_obj)
            = Ok attributes.
Proof.
  intros Hresp. apply discoveries_returns.
  apply build_response_returns_discoveries. eauto.
Qed.

Lemma build_response_returns_witness :
  ∃ resp,
    build_response (RowList [post1; post2])
      (get_resource post_router (request_with (Some (py "author,reviewers"))))
    = Ok resp.
Proof.
  apply build_response_returns.
  intros row path _ Hpath.
  change (path ∈ [[py "author"]; [py "reviewers"]]) in Hpath.
  apply elem_of_cons in Hpath as [->|Hpath];
    [|apply list_elem_of_singleton in Hpath as ->].
  - eexists. split; [reflexivity|].
    intros so ->%list_elem_of_singleton. by eexists.
  - eexists. split; [reflexivity|].
    intros so [->|Hso]%elem_of_cons; [by eexists|].
    apply list_elem_of_singleton in Hso as ->. by eexists.
Defined.

Lemma build_response_propagates_witness :
  ∃ selected_objs,
    get_related PostResource post1 [py "author"] = Ok selected_objs
    ∧ ∀ selected_obj, selected_obj ∈ selected_objs →
        ∃ attributes,
          Read (resource selected_obj) (obj selected_obj) = Ok attributes.
Proof.
  apply (build_response_propagates (Row post1)
           (get_resource post_router (request_with (Some (py "author"))))
           (JAResponseSingle
              {| ja_id := "1"; ja_type := "post"; ja_attributes := post1 |}
              [author_entry "Ann"])).
  - vm_compute. reflexivity.
  - by left.
  - by left.
Defined.

(** A failing [get_related] call leaves no response. *)
Example build_response_raises :
  build_response (Row post1)
    {| resource_class_of := FlakyResource;
       inclusions := [[py "author"]; [py "tags"]] |}
  = Raise (Exception "connection lost").
Proof. reflexivity. Qed.

Lemma dict_set_elem {K V} `{EqDecision K} (k : K) (v : V) (d : dict K V) kv :
  kv ∈ dict_set k v d → kv = (k, v) ∨ kv ∈ d.
Proof.
  induction d as [|[k' v'] d IH]; simpl.
  - intros ->%list_elem_of_singleton. by left.
  - destruct (decide (k' = k)) as [->|?].
    + intros [->|?]%elem_of_cons; [by left|]. right. by right.
    + intros [->|Hin]%elem_of_cons; [right; by left|].
      destruct (IH Hin) as [->|?]; [by left|]. right. by right.
Qed.

Lemma dict_of_elem {K V} `{EqDecision K} (ws : list (K * V)) kv :
  kv ∈ dict_of ws → kv ∈ ws.
Proof.
  induction ws as [|[k v] ws IH] using rev_ind; [done|].
  rewrite dict_of_snoc. intros [->|Hin]%dict_set_elem; apply elem_of_app.
  - right. by left.
  - left. by apply IH.
Qed.

(** The discoveries are those of the selected objects of the calls. *)
Lemma discoveries_elem rows res ds kv :
  discoveries rows res = Ok ds →
  kv ∈ ds ↔
  ∃ row path selected_objs selected_obj,
    row ∈ rows ∧ path ∈ inclusions res
    ∧ get_related (resource_class_of res) row path = Ok selected_objs
    ∧ selected_obj ∈ selected_objs
    ∧ discovery selected_obj = Ok kv.
Proof.
  unfold discoveries. intros (dss & Hdss%mapM_result_Ok & ->)%result_fmap_Ok.
  rewrite list_elem_of_join. split.
  - intros (ds & Hkv & Hds).
    destruct (Forall2_elem_of_r _ _ _ _ Hdss Hds)
      as ([row path] & [??]%elem_of_list_prod & Hpair).
    unfold discoveries_of in Hpair. simpl in Hpair.
    apply result_bind_Ok in Hpair as (sos & Hsos & Hmap%mapM_result_Ok).
    destruct (Forall2_elem_of_r _ _ _ _ Hmap Hkv) as (so & ? & ?).
    by exists row, path, sos, so.
  - intros (row & path & sos & so & Hrow & Hpath & Hsos & Hso & Hkv).
    destruct (Forall2_elem_of_l _ _ _ (row, path) Hdss) as (ds & Hds & Hpair).
    { by apply elem_of_list_prod. }
    exists ds. split; [|done].
    unfold discoveries_of in Hpair. simpl in Hpair. rewrite Hsos in Hpair.
    simpl in Hpair. apply mapM_result_Ok in Hpair.
    destruct (Forall2_elem_of_l _ _ _ so Hpair Hso) as (kv' & ? & Hkv').
    assert (kv' = kv) as -> by congruence. done.
Qed.

(** X3.  [included] holds nothing but entries of selected objects, and an
    entry for the key of every selected object: each entry is the resource
    object, read through [Read], of an object some [get_related] call for a
    primary row and a requested path returned, and every such object has an
    entry under its (resource name, id). *)
Theorem included_of_selected_objects rows res resp :
  build_response rows res = Ok resp →
  (∀ entry, entry ∈ included resp →
     ∃ row path selected_objs selected_obj attributes,
       row ∈ rows_list rows ∧ path ∈ inclusions res
       ∧ get_related (resource_class_of res) row path = Ok selected_objs
       ∧ selected_obj ∈ selected_objs
       ∧ Read (resource selected_obj) (obj selected_obj) = Ok attributes
       ∧ entry = {| ja_id := str (model_id (obj selected_obj));
                    ja_type := name (resource selected_obj);
                    ja_attributes := attributes |})
  ∧ (∀ row path selected_objs selected_obj,
       row ∈ rows_list rows → path ∈ inclusions res →
       get_related (resource_class_of res) row path = Ok selected_objs →
       selected_obj ∈ selected_objs →
       ∃ entry,
         entry ∈ included resp
         ∧ key_of entry
           = (name (resource selected_obj), str (model_id (obj selected_obj)))).
Proof.
  intros (ds & Hds & _ & ->)%build_response_Ok. split.
  - intros entry ([k entry'] & -> & Hin%dict_of_elem)%list_elem_of_fmap.
    apply (discoveries_elem _ _ _ _ Hds) in Hin
      as (row & path & sos & so & ? & ? & ? & ? & Hkv).
    unfold discovery in Hkv.
    apply result_bind_Ok in Hkv as (attributes & ? & [= <- <-]).
    by exists row, path, sos, so, attributes.
  - intros row path sos so Hrow Hpath Hsos Hso.
    destruct (proj1 (discoveries_returns (rows_list rows) res)) with row path
      as (sos' & Hsos' & Hread); [by eauto|done..|].
    assert (sos' = sos) as -> by congruence.
    destruct (Hread so Hso) as [attributes Hattributes].
    set (k := (name (resource so), model_id (obj so))).
    set (entry := {| ja_id := str (model_id (obj so));
                     ja_type := name (resource so);
                     ja_attributes := attributes |}).
    assert ((k, entry) ∈ ds) as Hin.
    { apply (discoveries_elem _ _ _ _ Hds). exists row, path, sos, so.
      split_and!; [done..|]. unfold discovery. by rewrite Hattributes. }
    assert (k ∈ keys (dict_of ds)) as Hk.
    { rewrite keys_dict_of. apply first_occurrences_elem.
      apply list_elem_of_fmap. by exists (k, entry). }
    apply list_elem_of_fmap in Hk as ([k' entry'] & Hk' & Hin'). simpl in Hk'.
    subst k'. exists entry'. split.
    + apply list_elem_of_fmap. by exists (k, entry').
    + assert (keyed (k, entry')) as Hkeyed; [|done].
      eapply Forall_forall; [|exact Hin'].
      eapply dict_of_Forall, discoveries_keyed, Hds.
Qed.

Lemma included_of_selected_objects_witness :
  ∃ entry,
    entry ∈ [author_entry "Ann"] ∧ key_of entry = ("author", "7").
Proof.
  eapply (proj2 (included_of_selected_objects (Row post1)
                   (get_resource post_router (request_with (Some (py "author"))))
                   (JAResponseSingle
                      (primary (get_resource post_router
                                  (request_with (Some (py "author")))) post1)
                      [author_entry "Ann"])
                   eq_refl)
            post1 [py "author"] _ {| obj := author7; resource := author_meta |}).
  - by left.
  - by left.
  - reflexivity.
  - by left.
Defined.

(** X4.  An empty list of rows gives the list document with empty [data]
    and empty [included], whatever is requested; no collaborator is
    called. *)
Theorem build_response_no_rows res :
  build_response (RowList []) res = Ok (JAResponseList [] []).
Proof. by rewrite build_response_RowList. Qed.

(** X5.  A row on its own and the list of that one row give the same
    resource object and the same [included]; only the wrapping of [data]
    differs, and an exception is the same in both. *)
Theorem build_response_row_or_list_of_row row res :
  build_response (RowList [row]) res =
  (λ resp,
     match resp with
     | JAResponseSingle d inc => JAResponseList [d] inc
     | JAResponseList ds inc => JAResponseList ds inc
     end) <$> build_response (Row row) res.
Proof.
  rewrite build_response_Row, build_response_RowList.
  by destruct (discoveries [row] res).
Qed.

(** ** [get_resource]: what splitting keeps *)

Lemma split_nonempty sep s : split sep s ≠ [].
Proof.
  destruct s as [|c s]; simpl; [done|].
  destruct (decide (c = sep)); [done|]. by destruct (split sep s).
Qed.

Lemma str_join_cons sep piece pieces :
  pieces ≠ [] →
  str_join sep (piece :: pieces) = piece ++ sep :: str_join sep pieces.
Proof. by destruct pieces. Qed.

Lemma str_join_split sep s : str_join sep (split sep s) = s.
Proof.
  induction s as [|c s IH]; simpl; [done|].
  destruct (decide (c = sep)) as [->|Hne].
  - rewrite str_join_cons by apply split_nonempty. by rewrite IH.
  - pose proof (split_nonempty sep s) as Hsplit.
    destruct (split sep s) as [|piece pieces]; [done|].
    destruct pieces as [|piece' pieces].
    + simpl in *. by rewrite IH.
    + rewrite str_join_cons by done. rewrite str_join_cons in IH by done.
      by rewrite <-app_comm_cons, IH.
Qed.

Lemma length_split sep s : length (split sep s) = S (count_char sep s).
Proof.
  induction s as [|c s IH]; simpl; [done|].
  destruct (decide (c = sep)); simpl; [by rewrite IH|].
  by destruct (split sep s).
Qed.

(** X6.  Splitting loses nothing: joining the segments of every path with
    dots and the paths with commas gives the [include] parameter back. *)
Theorem get_resource_join self request include :
  query_params_get request "include" = Some include →
  str_join "," (str_join "." <$> inclusions (get_resource self request))
  = include.
Proof.
  intros Hget. unfold get_resource. simpl. rewrite Hget.
  destruct include as [|c include]; [done|]. simpl truthy. cbv iota.
  unfold parse_include. rewrite <-list_fmap_compose.
  rewrite (list_fmap_ext _ id (split "," (c :: include))).
  - by rewrite list_fmap_id, str_join_split.
  - intros _ group _. simpl. apply str_join_split.
Qed.

Lemma get_resource_join_witness :
  str_join ","
    (str_join "."
       <$> inclusions (get_resource post_router
                         (request_with (Some (py "author.publisher,,comments.")))))
  = "author.publisher,,comments.".
Proof.
  apply (get_resource_join post_router
           (request_with (Some (py "author.publisher,,comments.")))).
  reflexivity.
Defined.

(** X7.  A non-empty [include] parameter gives one path more than it has
    commas, and no path is without a segment; nothing is dropped or
    merged. *)
Theorem get_resource_path_count self request include :
  query_params_get request "include" = Some include →
  include ≠ "" →
  length (inclusions (get_resource self request)) = S (count_char "," include)
  ∧ Forall (λ path, path ≠ []) (inclusions (get_resource self request)).
Proof.
  intros Hget Hne. unfold get_resource. simpl. rewrite Hget.
  destruct include as [|c include]; [done|]. simpl truthy. cbv iota.
  unfold parse_include. split.
  - by rewrite length_fmap, length_split.
  - apply Forall_fmap, Forall_forall. intros group _. apply split_nonempty.
Qed.

Lemma get_resource_path_count_witness :
  length (inclusions (get_resource post_router (request_with (Some (py "a,,b.c")))))
  = S (count_char "," "a,,b.c")
  ∧ Forall (λ path, path ≠ [])
      (inclusions (get_resource post_router (request_with (Some (py "a,,b.c"))))).
Proof.
  apply (get_resource_path_count post_router (request_with (Some (py "a,,b.c")))).
  - reflexivity.
  - discriminate.
Defined.

(** X8.  Whatever the request, no segment of the inclusions holds a comma
    or a dot. *)
Theorem get_resource_segments_without_separators self request :
  Forall (Forall (λ segment,
            string_forall (λ c, negb (char_eqb c ",") && negb (char_eqb c "."))
              segment = true))
    (inclusions (get_resource self request)).
Proof.
  unfold get_resource. simpl.
  destruct (query_params_get request "include") as [include|]; [|constructor].
  destruct (truthy include); [|constructor].
  unfold parse_include. apply Forall_fmap.
  eapply Forall_impl.
  - apply (split_pieces "," (λ _, true) (λ c, negb (char_eqb c ","))).
    + intros c _ Hc. by apply negb_true_iff, N.eqb_neq.
    + clear. by induction include.
  - intros group Hgroup. simpl. revert Hgroup. apply split_pieces.
    intros c Hc Hne. apply andb_true_iff. split; [exact Hc|].
    by apply negb_true_iff, N.eqb_neq.
Qed.


(** ** [include_query]: the strings the pattern accepts *)

Lemma fullmatch_Star_cons r c (s : pystr) :
  fullmatch (Star r) (c :: s) = true ↔
  ∃ s1 s2 : pystr, s = s1 ++ s2 ∧ fullmatch r (c :: s1) = true
           ∧ fullmatch (Star r) s2 = true.
Proof. simpl. by rewrite fullmatch_Cat. Qed.

Lemma fullmatch_Star_app r (s1 s2 : pystr) :
  fullmatch r s1 = true → fullmatch (Star r) s2 = true →
  fullmatch (Star r) (s1 ++ s2) = true.
Proof.
  destruct s1 as [|c s1]; [done|]. intros Hs1 Hs2.
  rewrite <-app_comm_cons. apply fullmatch_Star_cons. by exists s1, s2.
Qed.

Lemma fullmatch_Star_Class p s :
  string_forall p s = true → fullmatch (Star (Class p)) s = true.
Proof.
  induction s as [|c s IH]; [done|]. simpl string_forall.
  rewrite andb_true_iff. intros [Hc Hs].
  change (c :: s) with ([c] ++ s).
  apply fullmatch_Star_app; [|by apply IH].
  apply fullmatch_Class. by exists c.
Qed.

Lemma fullmatch_Plus_Class p s :
  fullmatch (Plus (Class p)) s = true ↔ s ≠ [] ∧ string_forall p s = true.
Proof.
  split.
  - intros Hs. split; [|by apply fullmatch_Plus_forall].
    intros ->. by apply fullmatch_Cat in Hs as ([|??] & [|??] & ? & ? & ?).
  - destruct s as [|c s]; [by intros [??]|]. intros [_ Hs].
    simpl in Hs. apply andb_true_iff in Hs as [Hc Hs].
    apply fullmatch_Cat. exists [c], s. split_and!; [done| |].
    + apply fullmatch_Class. by exists c.
    + by apply fullmatch_Star_Class.
Qed.

(** A piece that holds no separator is split off as it is. *)
Lemma split_app_sep sep (piece rest : pystr) :
  string_forall (λ c, negb (char_eqb c sep)) piece = true →
  split sep (piece ++ sep :: rest) = piece :: split sep rest.
Proof.
  induction piece as [|c piece IH]; intros Hpiece.
  - simpl. by rewrite decide_True.
  - simpl in Hpiece.
    rewrite andb_true_iff, negb_true_iff in Hpiece.
    destruct Hpiece as [Hc%N.eqb_neq Hpiece].
    rewrite <-app_comm_cons. simpl. rewrite decide_False by done.
    by rewrite IH.
Qed.

Lemma split_no_sep sep piece :
  string_forall (λ c, negb (char_eqb c sep)) piece = true →
  split sep piece = [piece].
Proof.
  induction piece as [|c piece IH]; simpl; [done|].
  rewrite andb_true_iff, negb_true_iff. intros [Hc%N.eqb_neq Hpiece].
  rewrite decide_False by done. by rewrite IH.
Qed.

Lemma split_str_join sep pieces :
  pieces ≠ [] →
  Forall (λ piece, string_forall (λ c, negb (char_eqb c sep)) piece = true) pieces →
  split sep (str_join sep pieces) = pieces.
Proof.
  intros Hne Hpieces. induction Hpieces as [|piece pieces Hpiece _ IH]; [done|].
  destruct pieces as [|piece' pieces].
  - by apply split_no_sep.
  - rewrite str_join_cons by done. rewrite split_app_sep by done.
    by rewrite IH.
Qed.

(** The characters of a string, from the pieces it splits into. *)
Lemma split_pieces_back sep (p : char → bool) s :
  Forall (λ piece, string_forall p piece = true) (split sep s) →
  string_forall (λ c, p c || char_eqb c sep) s = true.
Proof.
  induction s as [|c s IH]; simpl; [done|].
  destruct (decide (c = sep)) as [->|Hne].
  - intros [_ Hs]%Forall_cons. unfold char_eqb at 1.
    rewrite N.eqb_refl, orb_true_r. by apply IH.
  - destruct (split sep s) as [|piece pieces].
    + intros [Hc _]%Forall_cons. simpl in Hc.
      apply andb_true_iff in Hc as [-> _]. simpl. apply IH. by constructor.
    + intros [Hc Hpieces]%Forall_cons. simpl in Hc.
      apply andb_true_iff in Hc as [-> Hpiece]. simpl. apply IH.
      by constructor.
Qed.

(** Appending characters other than the separator extends the last piece. *)
Lemma split_app_tail sep (s t : pystr) :
  string_forall (λ c, negb (char_eqb c sep)) t = true →
  ∃ (init : list pystr) (last : pystr),
    split sep s = init ++ [last] ∧ split sep (s ++ t) = init ++ [last ++ t].
Proof.
  intros Ht. induction s as [|c s (init & last & Hs & Hst)].
  - exists [], []. split; [done|]. by apply split_no_sep.
  - rewrite <-app_comm_cons. simpl. rewrite Hs, Hst.
    destruct (decide (c = sep)).
    + by exists ([] :: init), last.
    + destruct init as [|piece init]; simpl.
      * by exists [], (c :: last).
      * by exists ((c :: piece) :: init), last.
Qed.

(** The word characters of the grammar are word characters of the pattern. *)
Lemma is_ascii_word_is_word {U : Unicode} c :
  is_ascii_word c = true → is_word c = true.
Proof.
  intros Hc. unfold is_word. destruct (c <? 128)%N eqn:Hlt; [done|].
  apply N.ltb_ge in Hlt. unfold is_ascii_word in Hc.
  rewrite !orb_true_iff, !andb_true_iff, !N.leb_le, N.eqb_eq in Hc. lia.
Qed.

Section accepts.
Context {U : Unicode}.

Lemma group_ok_no_comma group :
  group_ok group → string_forall (λ c, negb (char_eqb c ",")) group = true.
Proof.
  intros [_ Hgroup]. revert Hgroup. apply string_forall_impl.
  intros c Hc. apply negb_true_iff, N.eqb_neq. intros ->.
  by vm_compute in Hc.
Qed.

(** The words of [(,[\w\.]+)*] are the groups that follow the first. *)
Lemma include_tail_groups s :
  fullmatch (Star (Cat (Class (char_eqb ",")) (Plus (Class word_or_dot)))) s
  = true →
  ∀ group : pystr, ∃ groups,
    Forall group_ok groups ∧ group ++ s = str_join "," (group :: groups).
Proof.
  remember (length s) as n eqn:Hn. revert s Hn.
  induction (lt_wf n) as [n _ IH]. intros [|c s] -> Hs group.
  - exists []. split; [done|]. by rewrite app_nil_r.
  - apply fullmatch_Star_cons in Hs as (s1 & s2 & -> & Hs1 & Hs2).
    apply fullmatch_Cat in Hs1
      as (sc & group' & Heq & (c' & -> & Hc')%fullmatch_Class
          & Hgroup'%fullmatch_Plus_Class).
    apply char_eqb_eq in Hc' as <-. simpl in Heq. injection Heq as -> ->.
    destruct (IH (length s2)) with s2 group' as (groups & Hgroups & Hjoin);
      [|done..|].
    { simpl. rewrite length_app. lia. }
    exists (group' :: groups). split; [by constructor|].
    rewrite str_join_cons by done. by rewrite <-Hjoin.
Qed.

Lemma include_groups_tail groups :
  Forall group_ok groups →
  ∀ group : pystr, ∃ s : pystr,
    str_join "," (group :: groups) = group ++ s
    ∧ fullmatch (Star (Cat (Class (char_eqb ",")) (Plus (Class word_or_dot)))) s
      = true.
Proof.
  induction 1 as [|group' groups Hgroup' _ IH]; intros group.
  - exists []. split; [by rewrite app_nil_r|done].
  - destruct (IH group') as (s & Hjoin & Hs).
    exists ((char_of_ascii "," :: group') ++ s). split.
    + rewrite str_join_cons by done. by rewrite Hjoin.
    + apply fullmatch_Star_app; [|done].
      apply fullmatch_Cat. exists [char_of_ascii ","], group'.
      split_and!; [done| |by apply fullmatch_Plus_Class].
      apply fullmatch_Class. by exists (char_of_ascii ",").
Qed.

Lemma fullmatch_include_pattern include :
  fullmatch include_pattern include = true ↔
  ∃ body,
    (include = body ∨ include = body ++ [line_feed])
    ∧ Forall group_ok (split "," body).
Proof.
  unfold include_pattern. split.
  - intros (s1 & s23 & -> & Hs1%fullmatch_Plus_Class & Hs23)%fullmatch_Cat.
    apply fullmatch_Cat in Hs23 as (s2 & s3 & -> & Hs2 & Hs3).
    destruct (include_tail_groups s2 Hs2 s1) as (groups & Hgroups & Hjoin).
    exists (s1 ++ s2). split.
    + unfold Dollar in Hs3. rewrite fullmatch_Alt, orb_true_iff in Hs3.
      destruct Hs3 as [->%fullmatch_Eps|(c & -> & Hc)%fullmatch_Class].
      * left. by rewrite app_nil_r.
      * right. apply char_eqb_eq in Hc as <-. by rewrite app_assoc.
    + rewrite Hjoin, split_str_join; [by constructor|done|].
      eapply Forall_impl; [|apply group_ok_no_comma]. by constructor.
  - intros (body & Hinclude & Hgroups).
    pose proof (split_nonempty "," body) as Hne.
    pose proof (str_join_split "," body) as Hbody.
    destruct (split "," body) as [|group groups]; [done|].
    apply Forall_cons in Hgroups as [Hgroup Hgroups].
    destruct (include_groups_tail groups Hgroups group) as (s2 & Hjoin & Hs2).
    rewrite Hjoin in Hbody. subst body.
    assert (∃ s3 : pystr,
              include = group ++ s2 ++ s3 ∧ fullmatch Dollar s3 = true)
      as (s3 & -> & Hs3).
    { destruct Hinclude as [-> | ->].
      - exists []. by rewrite !app_nil_r.
      - exists [line_feed]. by rewrite app_assoc. }
    apply fullmatch_Cat. exists group, (s2 ++ s3).
    split_and!; [done|by apply fullmatch_Plus_Class|].
    apply fullmatch_Cat. by exists s2, s3.
Qed.

(** X9.  The strings the pattern accepts, exactly: a body, after which one
    line feed may stand, whose parts between the commas are all non-empty and
    made of word characters and dots. *)
Theorem include_query_accepts include :
  include_query (Some include) = true ↔
  ∃ body,
    (include = body ∨ include = body ++ [line_feed])
    ∧ Forall group_ok (split "," body).
Proof. apply fullmatch_include_pattern. Qed.

(** X10.  Every string of the grammar is accepted: when all the segments
    an [include] string splits into are non-empty runs of word characters, it
    passes the pattern. *)
Theorem well_formed_include_accepted include :
  well_formed (parse_include include) = true →
  include_query (Some include) = true.
Proof.
  intros Hwf. apply fullmatch_include_pattern. exists include.
  split; [by left|].
  unfold well_formed, parse_include in Hwf.
  apply Is_true_true_2 in Hwf. rewrite forallb_True, Forall_fmap in Hwf.
  eapply Forall_impl; [exact Hwf|]. clear Hwf.
  intros group Hsegments. simpl in Hsegments. apply forallb_True in Hsegments.
  split.
  - intros ->. by apply Forall_cons in Hsegments as [? _].
  - apply (split_pieces_back "." is_word).
    eapply Forall_impl; [exact Hsegments|].
    intros segment Hsegment. unfold segment_ok in Hsegment.
    apply Is_true_true_1 in Hsegment.
    apply andb_true_iff in Hsegment as [_ Hsegment].
    revert Hsegment. apply string_forall_impl, is_ascii_word_is_word.
Qed.

(** X11.  An accepted [include] string has no empty path: a string that
    is empty, or begins or ends with a comma, or has two commas in a row, is
    refused, so that [get_resource] never hands on an empty list of
    inclusions or the path of one empty segment for an accepted string. *)
Theorem accepted_include_no_empty_path self request include :
  query_params_get request "include" = Some include →
  include_query (Some include) = true →
  inclusions (get_resource self request) ≠ []
  ∧ Forall (λ path, path ≠ [py ""]) (inclusions (get_resource self request)).
Proof.
  intros Hget (body & Hinclude & Hgroups)%fullmatch_include_pattern.
  assert (Forall (λ group, group ≠ []) (split "," include)) as Hnonempty.
  { destruct Hinclude as [-> | ->].
    - eapply Forall_impl; [exact Hgroups|]. by intros group [? _].
    - destruct (split_app_tail "," body [line_feed]) as
        (init & last & Hbody & ->); [done|].
      rewrite Hbody in Hgroups. apply Forall_app in Hgroups as [Hinit Hlast].
      apply Forall_app. split.
      + eapply Forall_impl; [exact Hinit|]. by intros group [? _].
      + constructor; [|done]. by destruct last. }
  assert (include ≠ []) as Hne.
  { intros ->. by apply Forall_cons in Hnonempty as [? _]. }
  unfold get_resource. simpl. rewrite Hget.
  destruct include as [|c include]; [done|]. simpl truthy. cbv iota.
  unfold parse_include. split.
  - intros Hnil%fmap_nil_inv. by apply split_nonempty in Hnil.
  - apply Forall_fmap. eapply Forall_impl; [exact Hnonempty|].
    intros group Hgroup Hsplit. apply Hgroup.
    by rewrite <-(str_join_split "." group), Hsplit.
Qed.
End accepts.

Example include_query_examples :
  include_query (U := latin1) (Some (py "a.b,c")) = true
  ∧ include_query (U := latin1) (Some (py ".")) = true
  ∧ include_query (U := latin1) (Some (py "a,")) = false
  ∧ include_query (U := latin1) (Some (py ",a")) = false
  ∧ include_query (U := latin1) (Some (py "a b")) = false
  ∧ include_query (U := latin1) (Some [233%N]) = true.
Proof. by vm_compute. Qed.

Lemma well_formed_include_accepted_witness :
  include_query (U := latin1) (Some (py "author.publisher,comments")) = true.
Proof.
  apply (well_formed_include_accepted (U := latin1)). vm_compute. reflexivity.
Defined.

Lemma accepted_include_no_empty_path_witness :
  inclusions (get_resource post_router (request_with (Some (py "a..b,c")))) ≠ []
  ∧ Forall (λ path, path ≠ [py ""])
      (inclusions (get_resource post_router (request_with (Some (py "a..b,c"))))).
Proof.
  apply (accepted_include_no_empty_path (U := latin1) post_router
           (request_with (Some (py "a..b,c"))) (py "a..b,c")).
  - reflexivity.
  - vm_compute. reflexivity.
Defined.

(** ** [get_schemas_from_relationships]: visited schemas, and closedness *)

Section closure_more.
Context {Schema : Type} `{Countable Schema}.
Implicit Types (graph : Graph Schema) (V : gset Schema).
Implicit Types (relationships : Relationships Schema).

Lemma visited_or_set_Some V : visited_or_set (Some V) = V.
Proof. unfold visited_or_set. by destruct (decide (V = ∅)) as [->|]. Qed.

Lemma closure_fuel_enough graph relationships V (fuel : nat) :
  (closure_fuel graph relationships ≤ fuel)%nat →
  (size (universe graph relationships ∖ V) < fuel)%nat.
Proof.
  unfold closure_fuel. intros Hfuel.
  eapply Nat.le_lt_trans; [apply subseteq_size|exact Hfuel]. set_solver.
Qed.

Lemma closure_run graph relationships visited (fuel : nat) :
  (closure_fuel graph relationships ≤ fuel)%nat →
  ∃ schemas V',
    get_schemas_from_relationships fuel graph relationships visited
      = Some (schemas, V')
    ∧ closure_of graph (targets relationships) (visited_or_set visited)
        schemas V'.
Proof.
  intros Hfuel.
  apply (get_schemas_from_relationships_closure graph
           (universe graph relationships)).
  - intros a b. apply edge_universe.
  - intros t Ht. unfold universe. set_solver.
  - by apply closure_fuel_enough.
Qed.

(** X12.  Called with a set of visited schemas, the function returns,
    each once, exactly the schemas that a chain of relationships leads to
    through schemas not visited before; it returns none that was visited, and
    the set it works on ends as the visited schemas and the returned ones. *)
Theorem closure_skips_visited graph relationships V (fuel : nat) :
  (closure_fuel graph relationships ≤ fuel)%nat →
  ∃ schemas V',
    get_schemas_from_relationships fuel graph relationships (Some V)
      = Some (schemas, V')
    ∧ NoDup schemas
    ∧ (∀ schema, schema ∈ schemas → schema ∉ V)
    ∧ V' = V ∪ list_to_set schemas
    ∧ ∀ schema,
        schema ∈ schemas
        ↔ ∃ t, t ∈ targets relationships ∧ unvisited_path graph V t schema.
Proof.
  intros Hfuel.
  destruct (closure_run graph relationships (Some V) fuel Hfuel)
    as (schemas & V' & Hrun & Hnodup & HV' & Hschemas).
  rewrite visited_or_set_Some in HV', Hschemas.
  exists schemas, V'. split_and!; [done..| |done|done].
  intros schema (t & _ & Hpath)%Hschemas. by eapply unvisited_path_end.
Qed.

(** X13.  The list is empty exactly when the root declares no
    relationship. *)
Theorem closure_empty_iff graph relationships (fuel : nat) :
  (closure_fuel graph relationships ≤ fuel)%nat →
  ∃ schemas V,
    get_schemas_from_relationships fuel graph relationships None
      = Some (schemas, V)
    ∧ (schemas = [] ↔ relationships = []).
Proof.
  intros Hfuel.
  destruct (closure_run graph relationships None fuel Hfuel)
    as (schemas & V' & Hrun & _ & _ & Hschemas).
  exists schemas, V'. split; [done|]. simpl in Hschemas. split.
  - intros ->. destruct relationships as [|[name info] relationships]; [done|].
    assert (schema_with_relationships info ∈ []) as Hin; [|by apply elem_of_nil in Hin].
    apply Hschemas. exists (schema_with_relationships info).
    split; [by left|]. apply unvisited_here. set_solver.
  - intros ->. apply elem_of_nil_inv. intros schema (t & Ht & _)%Hschemas.
    by apply elem_of_nil in Ht.
Qed.

(** X14.  The list holds the schema of every relationship of the root and
    is closed under relationships: a schema that a listed schema is related
    to is listed as well. *)
Theorem closure_closed graph relationships (fuel : nat) :
  (closure_fuel graph relationships ≤ fuel)%nat →
  ∃ schemas V,
    get_schemas_from_relationships fuel graph relationships None
      = Some (schemas, V)
    ∧ (∀ t, t ∈ targets relationships → t ∈ schemas)
    ∧ (∀ a b, a ∈ schemas → edge graph a b → b ∈ schemas).
Proof.
  intros Hfuel.
  destruct (closure_run graph relationships None fuel Hfuel)
    as (schemas & V' & Hrun & _ & _ & Hschemas).
  exists schemas, V'. split; [done|]. simpl in Hschemas. split.
  - intros t Ht. apply Hschemas. exists t. split; [done|].
    apply unvisited_here. set_solver.
  - intros a b (t & Ht & Hpath)%Hschemas Hab. apply Hschemas.
    exists t. split; [done|]. eapply unvisited_path_snoc; [done..|]. set_solver.
Qed.
End closure_more.

Lemma closure_skips_visited_witness :
  ∃ schemas V',
    get_schemas_from_relationships 4 cyclic_graph
      (relationships_of cyclic_graph "A") (Some {["A"]}) = Some (schemas, V')
    ∧ NoDup schemas
    ∧ (∀ schema, schema ∈ schemas → schema ∉ ({["A"]} : gset string))
    ∧ V' = {["A"]} ∪ list_to_set schemas
    ∧ ∀ schema,
        schema ∈ schemas
        ↔ ∃ t, t ∈ targets (relationships_of cyclic_graph "A")
               ∧ unvisited_path cyclic_graph {["A"]} t schema.
Proof.
  apply closure_skips_visited. vm_compute. lia.
Defined.

Example closure_with_root_visited :
  fst <$> get_schemas_from_relationships 4 cyclic_graph
            (relationships_of cyclic_graph "A") (Some {["A"]})
  = Some ["B"; "C"].
Proof. by vm_compute. Qed.

Lemma closure_empty_iff_witness :
  ∃ schemas V,
    get_schemas_from_relationships 4 cyclic_graph
      (relationships_of cyclic_graph "C") None = Some (schemas, V)
    ∧ (schemas = [] ↔ relationships_of cyclic_graph "C" = []).
Proof.
  apply closure_empty_iff. vm_compute. lia.
Defined.

Lemma closure_closed_witness :
  ∃ schemas V,
    get_schemas_from_relationships 4 cyclic_graph
      (relationships_of cyclic_graph "A") None = Some (schemas, V)
    ∧ (∀ t, t ∈ targets (relationships_of cyclic_graph "A") → t ∈ schemas)
    ∧ (∀ a b, a ∈ schemas → edge cyclic_graph a b → b ∈ schemas).
Proof.
  apply closure_closed. vm_compute. lia.
Defined.

(** ** The response models *)

Lemma first_occurrences_NoDup_id {A} `{EqDecision A} (l : list A) :
  NoDup l → first_occurrences l = l.
Proof.
  induction 1 as [|x l Hx _ IH]; simpl; [done|]. rewrite IH. f_equal.
  clear IH. induction l as [|y l IH]; [done|].
  rewrite filter_cons_True by (intros ->; apply Hx; by left).
  f_equal. apply IH. intros Hin. apply Hx. by right.
Qed.

Section models_facts.
Context {Schema : Type} `{Countable Schema}.
Implicit Types (graph : Graph Schema) (cls : ResourceSchemas Schema).

(** The model of one schema, as [get_included_schema] builds it. *)
Lemma included_models_Ok cls schemas members :
  mapM (λ schema,
          name ← registry_name cls schema;
          mret {| attributes_schema := schema; type_literal := name |})
    schemas = Ok members →
  attributes_schema <$> members = schemas
  ∧ Forall (λ member,
              registry cls !! attributes_schema member
              = Some (type_literal member)) members.
Proof.
  intros Hmembers%mapM_result_Ok.
  induction Hmembers as [|schema member schemas members Hmember _ [IH1 IH2]];
    [done|].
  unfold registry_name in Hmember.
  destruct (registry cls !! schema) as [name|] eqn:Hname; [|done].
  simpl in Hmember. injection Hmember as <-. split.
  - csimpl. by rewrite IH1.
  - by constructor.
Qed.

Lemma included_models_registered cls schemas :
  (∀ schema, schema ∈ schemas → is_Some (registry cls !! schema)) →
  ∃ members,
    mapM (λ schema,
            name ← registry_name cls schema;
            mret {| attributes_schema := schema; type_literal := name |})
      schemas = Ok members.
Proof.
  intros Hregistered. apply mapM_result_returns. intros schema Hschema.
  destruct (Hregistered schema Hschema) as [name Hname].
  unfold registry_name. rewrite Hname. by eexists.
Qed.

Lemma included_models_KeyError cls schemas schema :
  schema ∈ schemas → registry cls !! schema = None →
  mapM (λ schema,
          name ← registry_name cls schema;
          mret {| attributes_schema := schema; type_literal := name |})
    schemas = Raise (Exception "KeyError").
Proof.
  intros Hin Hnone. induction schemas as [|schema' schemas IH];
    [by apply elem_of_nil in Hin|].
  simpl. destruct (registry_name cls schema') as [name|e] eqn:Hname; simpl.
  - apply elem_of_cons in Hin as [->|Hin].
    + unfold registry_name in Hname. by rewrite Hnone in Hname.
    + by rewrite IH.
  - unfold registry_name in Hname.
    destruct (registry cls !! schema'); by simplify_eq.
Qed.

Lemma reachable_universe graph (relationships : Relationships Schema) schema :
  reachable graph relationships schema → schema ∈ universe graph relationships.
Proof.
  intros (t & Ht & Hpath).
  assert (t ∈ universe graph relationships) as Hin.
  { unfold universe. set_solver. }
  clear Ht. induction Hpath as [|a b c Hab _ IH]; [done|].
  apply IH. by eapply edge_universe.
Qed.

(** X15.  When every schema reachable from the relationships of the
    resource is registered, [get_included_schema] returns one model for each
    of them and no other: the model of a schema carries the name the schema
    is registered under, and no schema has two. *)
Theorem get_included_schema_registered graph cls (fuel : nat) :
  (closure_fuel graph (get_relationships cls) ≤ fuel)%nat →
  (∀ schema, reachable graph (get_relationships cls) schema →
     is_Some (registry cls !! schema)) →
  ∃ members,
    get_included_schema fuel graph cls = Some (Ok members)
    ∧ NoDup (attributes_schema <$> members)
    ∧ ∀ schema name,
        {| attributes_schema := schema; type_literal := name |} ∈ members
        ↔ reachable graph (get_relationships cls) schema
          ∧ registry cls !! schema = Some name.
Proof.
  intros Hfuel Hregistered.
  destruct (closure_run graph (get_relationships cls) None fuel Hfuel)
    as (schemas & V' & Hrun & Hnodup & _ & Hschemas).
  simpl in Hschemas.
  assert (∀ schema, schema ∈ schemas
                    ↔ reachable graph (get_relationships cls) schema) as Hreach.
  { intros schema. rewrite Hschemas. unfold reachable.
    by setoid_rewrite unvisited_path_rtc. }
  destruct (included_models_registered cls schemas) as [members Hmembers].
  { intros schema Hschema. by apply Hregistered, Hreach. }
  destruct (included_models_Ok _ _ _ Hmembers) as [Hfst Hnames].
  exists members. unfold get_included_schema. rewrite Hrun. simpl.
  rewrite Hmembers, Hfst. split_and!; [done..|].
  intros schema name. rewrite <-Hreach, <-Hfst. split.
  - intros Hin. split.
    + apply list_elem_of_fmap.
      by exists {| attributes_schema := schema; type_literal := name |}.
    + by apply (proj1 (Forall_forall _ _) Hnames _ Hin).
  - intros [([schema' name'] & Hschema & Hin)%list_elem_of_fmap Hname].
    simpl in Hschema. subst schema'.
    pose proof (proj1 (Forall_forall _ _) Hnames _ Hin) as Hname'.
    simpl in Hname'. by simplify_eq.
Qed.

(** X16.  A reachable schema that is not registered makes
    [get_included_schema] fail with the [KeyError] of the registry, and the
    two response models with it. *)
Theorem get_included_schema_unregistered graph cls (fuel : nat) schema :
  (closure_fuel graph (get_relationships cls) ≤ fuel)%nat →
  reachable graph (get_relationships cls) schema →
  registry cls !! schema = None →
  get_included_schema fuel graph cls = Some (Raise (Exception "KeyError"))
  ∧ get_read_response_model fuel graph cls
    = Some (Raise (Exception "KeyError"))
  ∧ get_list_response_model fuel graph cls
    = Some (Raise (Exception "KeyError")).
Proof.
  intros Hfuel Hreach Hnone.
  assert (get_included_schema fuel graph cls
          = Some (Raise (Exception "KeyError"))) as Hincluded.
  { destruct (closure_run graph (get_relationships cls) None fuel Hfuel)
      as (schemas & V' & Hrun & _ & _ & Hschemas).
    simpl in Hschemas. unfold get_included_schema. rewrite Hrun. simpl.
    rewrite (included_models_KeyError cls schemas schema); [done| |done].
    apply Hschemas. destruct Hreach as (t & Ht & Hpath). exists t.
    split; [done|]. by apply unvisited_path_rtc. }
  unfold get_read_response_model, get_list_response_model.
  by rewrite Hincluded.
Qed.

(** X17.  With every reachable schema registered, the two response models
    are built from the same [Read], [Name] and [Included] and differ in the
    shape of [data] alone.  [Included] is the plain [list] exactly when the
    resource declares no relationship; otherwise it is the list of the union
    of the models [get_included_schema] returns, none of which the union
    drops. *)
Theorem response_models graph cls (fuel : nat) :
  (closure_fuel graph (get_relationships cls) ≤ fuel)%nat →
  (∀ schema, reachable graph (get_relationships cls) schema →
     is_Some (registry cls !! schema)) →
  ∃ members Included,
    get_included_schema fuel graph cls = Some (Ok members)
    ∧ get_read_response_model fuel graph cls
      = Some (Ok (JAResponseSingleModel (Read_schema cls) (resource_name cls)
                    Included))
    ∧ get_list_response_model fuel graph cls
      = Some (Ok (JAResponseListModel (Read_schema cls) (resource_name cls)
                    Included))
    ∧ (get_relationships cls = [] → Included = PlainList)
    ∧ (get_relationships cls ≠ [] → Included = ListOfUnion members).
Proof.
  intros Hfuel Hregistered.
  destruct (closure_run graph (get_relationships cls) None fuel Hfuel)
    as (schemas & V' & Hrun & Hnodup & _ & Hschemas).
  simpl in Hschemas.
  destruct (included_models_registered cls schemas) as [members Hmembers].
  { intros schema (t & Ht & Hpath)%Hschemas. apply Hregistered.
    exists t. split; [done|]. by apply unvisited_path_rtc. }
  destruct (included_models_Ok _ _ _ Hmembers) as [Hfst _].
  assert (get_included_schema fuel graph cls = Some (Ok members)) as Hincluded.
  { unfold get_included_schema. rewrite Hrun. simpl. by rewrite Hmembers. }
  exists members, (Included_of members).
  unfold get_read_response_model, get_list_response_model.
  rewrite Hincluded. simpl. split_and!; [done..| |].
  - intros Hnone. rewrite Hnone in Hschemas.
    assert (schemas = []) as ->.
    { apply elem_of_nil_inv. intros schema (t & Ht & _)%Hschemas.
      by apply elem_of_nil in Ht. }
    by apply fmap_nil_inv in Hfst as ->.
  - intros Hsome. unfold Included_of, Union.
    destruct members as [|member members].
    + destruct (get_relationships cls) as [|[name info] relationships]; [done|].
      assert (schema_with_relationships info ∈ schemas) as Hin.
      { apply Hschemas. exists (schema_with_relationships info).
        split; [by left|]. apply unvisited_here. set_solver. }
      rewrite <-Hfst in Hin. by apply elem_of_nil in Hin.
    + rewrite first_occurrences_NoDup_id; [done|].
      apply (NoDup_fmap_1 attributes_schema). by rewrite Hfst.
Qed.
End models_facts.

Lemma get_included_schema_registered_witness :
  ∃ members,
    get_included_schema 4 cyclic_graph cyclic_schemas = Some (Ok members)
    ∧ NoDup (attributes_schema <$> members)
    ∧ ∀ schema name,
        {| attributes_schema := schema; type_literal := name |} ∈ members
        ↔ reachable cyclic_graph (get_relationships cyclic_schemas) schema
          ∧ registry cyclic_schemas !! schema = Some name.
Proof.
  apply get_included_schema_registered.
  - vm_compute. lia.
  - intros schema Hreach%reachable_universe. revert schema Hreach.
    change (set_Forall (λ schema, is_Some (registry cyclic_schemas !! schema))
              (universe cyclic_graph (get_relationships cyclic_schemas))).
    apply (bool_decide_unpack _). vm_compute. exact I.
Defined.

Lemma get_included_schema_unregistered_witness :
  let cls := {| Read_schema := "ARead";
                resource_name := "a";
                get_relationships := relationships_of cyclic_graph "A";
                registry := <["B" := "b"]> ∅ |} in
  get_included_schema 4 cyclic_graph cls = Some (Raise (Exception "KeyError"))
  ∧ get_read_response_model 4 cyclic_graph cls
    = Some (Raise (Exception "KeyError"))
  ∧ get_list_response_model 4 cyclic_graph cls
    = Some (Raise (Exception "KeyError")).
Proof.
  apply (get_included_schema_unregistered cyclic_graph _ 4 "C").
  - vm_compute. lia.
  - exists "B". split; [by left|].
    eapply rtc_l; [|apply rtc_refl]. unfold edge. vm_compute.
    right. left.
  - reflexivity.
Defined.

Lemma response_models_witness :
  ∃ members Included,
    get_included_schema 4 cyclic_graph cyclic_schemas = Some (Ok members)
    ∧ get_read_response_model 4 cyclic_graph cyclic_schemas
      = Some (Ok (JAResponseSingleModel "ARead" "a" Included))
    ∧ get_list_response_model 4 cyclic_graph cyclic_schemas
      = Some (Ok (JAResponseListModel "ARead" "a" Included))
    ∧ (get_relationships cyclic_schemas = [] → Included = PlainList)
    ∧ (get_relationships cyclic_schemas ≠ [] → Included = ListOfUnion members).
Proof.
  apply (response_models cyclic_graph cyclic_schemas 4).
  - vm_compute. lia.
  - intros schema Hreach%reachable_universe. revert schema Hreach.
    change (set_Forall (λ schema, is_Some (registry cyclic_schemas !! schema))
              (universe cyclic_graph (get_relationships cyclic_schemas))).
    apply (bool_decide_unpack _). vm_compute. exact I.
Defined.

Example cyclic_response_model :
  get_read_response_model 4 cyclic_graph cyclic_schemas
  = Some (Ok (JAResponseSingleModel "ARead" "a"
                (ListOfUnion
                   [ {| attributes_schema := "B"; type_literal := "b" |};
                     {| attributes_schema := "A"; type_literal := "a" |};
                     {| attributes_schema := "C"; type_literal := "c" |} ]))).
Proof. by vm_compute. Qed.

(** ** [build_response]: more rows, and a path asked for twice *)

Section dict_more.
Context {K V : Type} `{EqDecision K}.
Implicit Types (k : K) (v : V) (d e : dict K V) (ws : list (K * V)).

Lemma first_occurrences_prefix (ks1 ks2 : list K) :
  first_occurrences ks1 `prefix_of` first_occurrences (ks1 ++ ks2).
Proof.
  induction ks2 as [|k ks2 IH] using rev_ind.
  - by rewrite app_nil_r.
  - rewrite app_assoc, first_occurrences_snoc. case_decide; [done|].
    by apply prefix_app_r.
Qed.

Lemma foldl_dict_set_NoDup e ws :
  NoDup (keys e) → NoDup (keys (foldl (λ d kv, dict_set kv.1 kv.2 d) e ws)).
Proof.
  revert e. induction ws as [|[k v] ws IH]; intros e He; [done|].
  simpl. by apply IH, dict_set_NoDup.
Qed.

Lemma dict_get_foldl e ws k :
  dict_get k (foldl (λ d kv, dict_set kv.1 kv.2 d) e ws) =
    match last_write k ws with
    | Some v => Some v
    | None => dict_get k e
    end.
Proof.
  induction ws as [|[k' v] ws IH] using rev_ind; [done|].
  rewrite foldl_snoc, last_write_snoc. simpl. rewrite dict_get_dict_set.
  by destruct (decide (k' = k)).
Qed.

Lemma keys_foldl_present e ws :
  (∀ k, k ∈ ws.*1 → k ∈ keys e) →
  keys (foldl (λ d kv, dict_set kv.1 kv.2 d) e ws) = keys e.
Proof.
  induction ws as [|[k v] ws IH] using rev_ind; [done|]. intros Hin.
  rewrite foldl_snoc. simpl. rewrite keys_dict_set, IH.
  - rewrite decide_True; [done|]. apply Hin. rewrite fmap_app.
    apply elem_of_app. right. by left.
  - intros k' Hk'. apply Hin. rewrite fmap_app. apply elem_of_app. by left.
Qed.

Lemma keys_foldl_kept e ws k :
  k ∈ keys e → k ∈ keys (foldl (λ d kv, dict_set kv.1 kv.2 d) e ws).
Proof.
  revert e. induction ws as [|[k' v'] ws IH]; intros e He; [done|].
  simpl. apply IH. rewrite keys_dict_set. case_decide; [done|].
  apply elem_of_app. by left.
Qed.

Lemma keys_foldl_written e ws k :
  k ∈ ws.*1 → k ∈ keys (foldl (λ d kv, dict_set kv.1 kv.2 d) e ws).
Proof.
  revert e. induction ws as [|[k' v] ws IH]; intros e; [by intros ?%elem_of_nil|].
  simpl. intros [->|Hin]%elem_of_cons; [|by apply IH].
  apply keys_foldl_kept. rewrite keys_dict_set. case_decide; [done|].
  apply elem_of_app. right. by left.
Qed.

Lemma dict_get_absent d k : k ∉ keys d → dict_get k d = None.
Proof.
  unfold keys. induction d as [|[k0 v0] d IH]; [done|]. csimpl.
  intros Hk. rewrite decide_False by (intros ->; apply Hk; by left).
  apply IH. intros ?. apply Hk. by right.
Qed.

(** A dictionary is its keys, in their order, and what they hold. *)
Lemma dict_ext d e :
  NoDup (keys d) → keys d = keys e →
  (∀ k, dict_get k d = dict_get k e) → d = e.
Proof.
  unfold keys. revert e.
  induction d as [|[k v] d IH]; intros [|[k' v'] e]; try done.
  csimpl. intros [Hk Hd]%NoDup_cons [= <- Hkeys] Hget.
  pose proof (Hget k) as Hv. simpl in Hv. rewrite !decide_True in Hv by done.
  injection Hv as <-. f_equal. apply IH; [done..|].
  intros k'. destruct (decide (k = k')) as [<-|Hne].
  - rewrite !dict_get_absent; [done|by unfold keys; rewrite <-Hkeys|done].
  - specialize (Hget k'). simpl in Hget. by rewrite !decide_False in Hget.
Qed.

(** Writing a sequence of assignments a second time changes nothing. *)
Lemma foldl_dict_set_twice e ws :
  NoDup (keys e) →
  foldl (λ d kv, dict_set kv.1 kv.2 d) e (ws ++ ws)
  = foldl (λ d kv, dict_set kv.1 kv.2 d) e ws.
Proof.
  intros He. rewrite foldl_app. apply dict_ext.
  - by do 2 apply foldl_dict_set_NoDup.
  - apply keys_foldl_present. intros k Hk. by apply keys_foldl_written.
  - intros k. rewrite !dict_get_foldl. by destruct (last_write k ws).
Qed.
End dict_more.

Lemma list_prod_app {A B} (l1 l2 : list A) (k : list B) :
  list_prod (l1 ++ l2) k = list_prod l1 k ++ list_prod l2 k.
Proof.
  induction l1 as [|x l1 IH]; [done|]. simpl. by rewrite IH, app_assoc.
Qed.

Lemma discoveries_app rows1 rows2 res :
  discoveries (rows1 ++ rows2) res =
    ds1 ← discoveries rows1 res; ds2 ← discoveries rows2 res; Ok (ds1 ++ ds2).
Proof.
  unfold discoveries. rewrite list_prod_app, mapM_result_app.
  destruct (mapM _ (list_prod rows1 _)) as [k1|e]; simpl; [|done].
  destruct (mapM _ (list_prod rows2 _)) as [k2|e]; simpl; [|done].
  by rewrite join_app.
Qed.

(** X18.  Rows that follow do not disturb what the rows before them have
    included: the keys of [included] for a list of rows are the first keys,
    in the same order, of [included] for that list with more rows after it. *)
Theorem included_keys_prefix rows1 rows2 res resp :
  build_response (RowList (rows1 ++ rows2)) res = Ok resp →
  ∃ resp1,
    build_response (RowList rows1) res = Ok resp1
    ∧ key_of <$> included resp1 `prefix_of` key_of <$> included resp.
Proof.
  intros (ds & Hds & _ & ->)%build_response_Ok. simpl in Hds.
  pose proof Hds as Hkeyed%discoveries_keyed.
  rewrite discoveries_app in Hds.
  apply result_bind_Ok in Hds as (ds1 & Hds1 & Hds).
  apply result_bind_Ok in Hds as (ds2 & Hds2 & [= <-]).
  rewrite build_response_RowList, Hds1. eexists. split; [done|]. simpl.
  rewrite !keyed_values_keys, !keys_dict_of, fmap_app.
  - destruct (first_occurrences_prefix ds1.*1 ds2.*1) as [ks ->].
    rewrite fmap_app. by apply prefix_app_r.
  - by apply dict_of_Forall.
  - eapply dict_of_Forall, discoveries_keyed, Hds1.
Qed.

Lemma included_keys_prefix_witness :
  ∃ resp1,
    build_response (RowList [post1])
      (get_resource post_router (request_with (Some (py "author,reviewers"))))
    = Ok resp1
    ∧ key_of <$> included resp1 `prefix_of` [("author", "7"); ("author", "8")].
Proof.
  apply (included_keys_prefix [post1] [post2]
           (get_resource post_router (request_with (Some (py "author,reviewers"))))
           (JAResponseList
              (primary (get_resource post_router
                          (request_with (Some (py "author,reviewers"))))
                 <$> [post1; post2])
              [author_entry "Ann";
               {| ja_id := "8"; ja_type := "author";
                  ja_attributes :=
                    {| model_id := IdInt 8; model_fields := [("name", VStr "Bob")] |} |}])).
  vm_compute. reflexivity.
Defined.

(** The writes of one row, for a list of paths. *)
Lemma row_writes_app res row (paths1 paths2 : Inclusions) :
  mjoin <$> mapM (discoveries_of res) (map (λ inc, (row, inc)) (paths1 ++ paths2))
  = ws1 ← mjoin <$> mapM (discoveries_of res) (map (λ inc, (row, inc)) paths1);
    ws2 ← mjoin <$> mapM (discoveries_of res) (map (λ inc, (row, inc)) paths2);
    Ok (ws1 ++ ws2).
Proof.
  rewrite map_app, mapM_result_app.
  destruct (mapM _ (map _ paths1)) as [k1|e]; simpl; [|done].
  destruct (mapM _ (map _ paths2)) as [k2|e]; simpl; [|done].
  by rewrite join_app.
Qed.

(** X19.  Asking for a path twice in a row is asking for it once:
    [include=a,a] gives the response, or the exception, of [include=a]. *)
Theorem build_response_repeated_path rows cls (paths1 paths2 : Inclusions) path :
  build_response rows
    {| resource_class_of := cls;
       inclusions := paths1 ++ path :: path :: paths2 |}
  = build_response rows
      {| resource_class_of := cls; inclusions := paths1 ++ path :: paths2 |}.
Proof.
  set (f := discoveries_of {| resource_class_of := cls; inclusions := [] |}).
  assert (∀ row incs d,
            for_each incs (λ inclusion included_resources,
              selected_objs ← get_related cls row inclusion;
              for_each selected_objs include_selected included_resources) d
            = wss ← mapM f (map (λ inc, (row, inc)) incs);
              Ok (foldl (λ d kv, dict_set kv.1 kv.2 d) d (mjoin wss))) as Hinc.
  { intros row incs d.
    apply (for_each_inclusions {| resource_class_of := cls; inclusions := [] |}). }
  assert (∀ row (incs1 incs2 : Inclusions),
            mjoin <$> mapM f (map (λ inc, (row, inc)) (incs1 ++ incs2))
            = ws1 ← mjoin <$> mapM f (map (λ inc, (row, inc)) incs1);
              ws2 ← mjoin <$> mapM f (map (λ inc, (row, inc)) incs2);
              Ok (ws1 ++ ws2)) as Happ.
  { intros. apply row_writes_app. }
  assert (∀ rows' d, NoDup (keys d) →
            for_each rows' (λ row included_resources,
              for_each (paths1 ++ path :: path :: paths2)
                (λ inclusion included_resources,
                   selected_objs ← get_related cls row inclusion;
                   for_each selected_objs include_selected included_resources)
                included_resources) d
            = for_each rows' (λ row included_resources,
              for_each (paths1 ++ path :: paths2)
                (λ inclusion included_resources,
                   selected_objs ← get_related cls row inclusion;
                   for_each selected_objs include_selected included_resources)
                included_resources) d) as Hloops.
  { induction rows' as [|row rows' IH]; intros d Hd; [done|].
    cbn [for_each]. rewrite !Hinc.
    assert ((wss ← mapM f (map (λ inc, (row, inc))
                             (paths1 ++ path :: path :: paths2));
             Ok (foldl (λ d kv, dict_set kv.1 kv.2 d) d (mjoin wss)))
            = (ws ← mjoin <$> mapM f (map (λ inc, (row, inc))
                                        (paths1 ++ [path] ++ [path] ++ paths2));
               Ok (foldl (λ d kv, dict_set kv.1 kv.2 d) d ws))) as ->.
    { by destruct (mapM f _). }
    assert ((wss ← mapM f (map (λ inc, (row, inc)) (paths1 ++ path :: paths2));
             Ok (foldl (λ d kv, dict_set kv.1 kv.2 d) d (mjoin wss)))
            = (ws ← mjoin <$> mapM f (map (λ inc, (row, inc))
                                        (paths1 ++ [path] ++ paths2));
               Ok (foldl (λ d kv, dict_set kv.1 kv.2 d) d ws))) as ->.
    { by destruct (mapM f _). }
    rewrite !Happ.
    destruct (mjoin <$> mapM f (map _ paths1)) as [ws1|e]; simpl; [|done].
    destruct (f (row, path)) as [ws|e]; simpl; [|done].
    destruct (mjoin <$> mapM f (map _ paths2)) as [ws2|e]; simpl; [|done].
    rewrite !app_nil_r.
    assert (foldl (λ d kv, dict_set kv.1 kv.2 d) d (ws1 ++ ws ++ ws ++ ws2)
            = foldl (λ d kv, dict_set kv.1 kv.2 d) d (ws1 ++ ws ++ ws2)) as ->.
    { pose proof (foldl_dict_set_twice
                    (foldl (λ d kv, dict_set kv.1 kv.2 d) d ws1) ws
                    (foldl_dict_set_NoDup d ws1 Hd)) as Htwice.
      rewrite foldl_app in Htwice. by rewrite !foldl_app, Htwice. }
    apply IH. by apply foldl_dict_set_NoDup. }
  unfold build_response, collect_included. simpl.
  rewrite Hloops by constructor. done.
Qed.

Example include_path_twice :
  build_response (RowList [post1; post2])
    (get_resource post_router (request_with (Some (py "reviewers,author,author"))))
  = build_response (RowList [post1; post2])
      (get_resource post_router (request_with (Some (py "reviewers,author")))).
Proof. by vm_compute. Qed.

Lemma discovered_keys_elem rows res ds (k : Key) :
  discoveries rows res = Ok ds →
  k ∈ ds.*1 ↔
  ∃ row path selected_objs selected_obj,
    row ∈ rows ∧ path ∈ inclusions res
    ∧ get_related (resource_class_of res) row path = Ok selected_objs
    ∧ selected_obj ∈ selected_objs
    ∧ k = (name (resource selected_obj), model_id (obj selected_obj)).
Proof.
  intros Hds. rewrite list_elem_of_fmap. split.
  - intros (kv & -> & Hkv).
    apply (discoveries_elem _ _ _ _ Hds) in Hkv
      as (row & path & sos & so & ? & ? & ? & ? & Hkv).
    exists row, path, sos, so. split_and!; [done..|].
    unfold discovery in Hkv. by apply result_bind_Ok in Hkv as (? & _ & [= <-]).
  - intros (row & path & sos & so & Hrow & Hpath & Hsos & Hso & ->).
    destruct (proj1 (discoveries_returns rows res)) with row path
      as (sos' & Hsos' & Hread); [by eauto|done..|].
    assert (sos' = sos) as -> by congruence.
    destruct (Hread so Hso) as [attributes Hattributes].
    eexists. split; [|apply (discoveries_elem _ _ _ _ Hds)].
    2: { exists row, path, sos, so. split_and!; [done..|].
         unfold discovery. by rewrite Hattributes. }
    done.
Qed.

(** X20.  Which keys are included depends on the rows and on which paths
    are requested, not on the order of the paths or on how often one is
    repeated: two requests with the same paths, in any order, include the
    same keys, up to their order. *)
Theorem included_keys_same_paths rows cls paths1 paths2 resp1 resp2 :
  (∀ path : Inclusion, path ∈ paths1 ↔ path ∈ paths2) →
  build_response rows {| resource_class_of := cls; inclusions := paths1 |}
    = Ok resp1 →
  build_response rows {| resource_class_of := cls; inclusions := paths2 |}
    = Ok resp2 →
  key_of <$> included resp1 ≡ₚ key_of <$> included resp2.
Proof.
  intros Hpaths (ds1 & Hds1 & _ & ->)%build_response_Ok
    (ds2 & Hds2 & _ & ->)%build_response_Ok.
  rewrite !keyed_values_keys, !keys_dict_of
    by (eapply dict_of_Forall, discoveries_keyed; eassumption).
  apply fmap_Permutation.
  apply NoDup_Permutation; [apply first_occurrences_NoDup..|].
  intros k. rewrite !first_occurrences_elem.
  rewrite (discovered_keys_elem _ _ _ _ Hds1),
    (discovered_keys_elem _ _ _ _ Hds2). simpl.
  split; intros (row & path & sos & so & ? & ?%Hpaths & ?);
    by exists row, path, sos, so.
Qed.

Lemma included_keys_same_paths_witness :
  [("author", "7"); ("author", "8")] ≡ₚ [("author", "8"); ("author", "7")].
Proof.
  apply (included_keys_same_paths (Row post1) PostResource
           [[py "author"]; [py "reviewers"]] [[py "reviewers"]; [py "author"]; [py "reviewers"]]
           (JAResponseSingle
              {| ja_id := "1"; ja_type := "post"; ja_attributes := post1 |}
              [author_entry "Ann";
               {| ja_id := "8"; ja_type := "author";
                  ja_attributes :=
                    {| model_id := IdInt 8; model_fields := [("name", VStr "Bob")] |} |}])
           (JAResponseSingle
              {| ja_id := "1"; ja_type := "post"; ja_attributes := post1 |}
              [ {| ja_id := "8"; ja_type := "author";
                  ja_attributes :=
                    {| model_id := IdInt 8; model_fields := [("name", VStr "Bob")] |} |};
                author_entry "Ann"])).
  - intros path. rewrite !elem_of_cons, !elem_of_nil. tauto.
  - vm_compute. reflexivity.
  - vm_compute. reflexivity.
Defined.

